(** * Sliding puzzle (Phaser 3): the puzzle engine of [src/index.js]

  A shallow embedding of the game logic of the sliding puzzle: the
  grid-size guard, [shuffleGrid], [create], [tileClicked], [slideTile]
  and [checkWin], followed by the properties of the specification that
  were checked against them.

  Conventions.
  - Tile numbers, frame names, rows and columns are array indices and
    counts; they are modelled as [nat].  The only subtraction the code
    performs on a possibly-zero value without a guard is
    [gridSize * gridSize - 1] (and [gridSize - 1]); the size guard at the
    top of the file makes [gridSize >= 3], so truncated subtraction agrees
    with JavaScript wherever the game runs.
  - JavaScript arrays are lists, read with stdpp's lookup [!!] and written
    with [<[i:=x]>]; what JavaScript does out of range is written out.
  - A JavaScript call either returns or throws: [completion]. *)

From Stdlib Require Import ZArith Lia.
From stdpp Require Import base list numbers strings sorting.

Open Scope nat_scope.

(** ** JavaScript completions *)

Inductive exn : Type :=
| TypeError
| ReferenceError
| Error (msg : string).

Inductive completion (A : Type) : Type :=
| Normal (a : A)
| Throw (e : exn).
Arguments Normal {A} a.
Arguments Throw {A} e.

(** ** The grid-size guard (index.js, lines 29-33)

  [gridSize] is a global that the hosting page is expected to set:
  index.js never declares it, line 30 only reads it and line 32 only
  assigns it.  So the page either has no such global ([Undeclared]), and
  the read at line 30 throws a ReferenceError, or it has one
  ([Declared]), holding [undefined] ([None]) or an integer.
  [!gridSize] is true for [undefined] and for [0]. *)

Inductive global : Type :=
| Undeclared
| Declared (v : option Z).

Definition falsy (g : option Z) : bool :=
match g with
| None => true
| Some z => (z =? 0)%Z
end.

(** The value of [gridSize] after the guard, or the exception of the
    read. *)
Definition gridSizeGuard (g : global) : completion Z :=
match g with
| Undeclared => Throw ReferenceError
| Declared None => Normal 4%Z
| Declared (Some z) =>
    Normal (if falsy (Some z) || (z <? 3)%Z then 4%Z else z)
end.

(** ** The array utilities of Phaser 3 used by [shuffleGrid]

  [Phaser.Utils.Array] is the game framework's library, not code of this
  repository.  Its functions are modelled after the library's documented
  behaviour, which the comments at the call sites repeat:
  [NumberArray(start, end)] "returns an array containing numbers in a
  range (inclusive)"; [Remove(array, item)] removes the given ITEM;
  [Shuffle] is "a built-in Fisher-Yates shuffle"; [Swap(array, item1,
  item2)] exchanges the positions of two ELEMENTS of the array ("swap the
  two lowest tile numbers (0 and 1)") and throws when one of them is not
  an element. *)

Module PhaserArray.

Definition NumberArray (start stop : nat) : list nat :=
  seq start (S stop - start).

(** [array.indexOf(item)]: the first index holding [item]. *)
Fixpoint indexOf (array : list nat) (item : nat) : option nat :=
  match array with
  | [] => None
  | x :: rest =>
      if decide (x = item) then Some 0
      else S <$> indexOf rest item
  end.

(** [Remove(array, item)]: splice out the first occurrence, if any. *)
Definition Remove (array : list nat) (item : nat) : list nat :=
  match indexOf array item with
  | Some index => delete index array
  | None => array
  end.

(** [temp = array[i]; array[i] = array[j]; array[j] = temp].  Both
    indices are in range wherever [Shuffle] calls it (see [Shuffle]). *)
Definition exchange (array : list nat) (i j : nat) : list nat :=
  match array !! i, array !! j with
  | Some temp, Some y => <[j := temp]> (<[i := y]> array)
  | _, _ => array
  end.

(** [for (i = array.length - 1; i > 0; i--) { j = Math.floor(Math.random()
    * (i + 1)); exchange i and j }].  The random source is made explicit:
    [rnd i] is the value of [Math.floor(Math.random() * (i + 1))] drawn at
    step [i].  [Math.random()] lies in [0, 1), so [rnd i <= i]; the
    theorems below assume exactly that. *)
Fixpoint Shuffle_from (rnd : nat → nat) (i : nat) (array : list nat)
  : list nat :=
  match i with
  | 0 => array
  | S i' => Shuffle_from rnd i' (exchange array i (rnd i))
  end.

Definition Shuffle (rnd : nat → nat) (array : list nat) : list nat :=
  Shuffle_from rnd (length array - 1) array.

Definition Swap (array : list nat) (item1 item2 : nat)
  : completion (list nat) :=
  if decide (item1 = item2) then Normal array
  else
    match indexOf array item1, indexOf array item2 with
    | Some index1, Some index2 =>
        Normal (<[index2 := item1]> (<[index1 := item2]> array))
    | _, _ =>
        Throw (Error "Supplied items must be elements of the same array")
    end.

End PhaserArray.

(** ** [shuffleGrid] (index.js, lines 246-273) *)

Section Shuffle.

Variable gridSize : nat.

(** The tile numbers before shuffling: every frame but the blank's. *)
Definition tileNumbers0 : list nat :=
  PhaserArray.Remove
    (PhaserArray.NumberArray 0 (gridSize * gridSize - 1)) (gridSize - 1).

(** The inner loop: [for (j = i + 1; j < length; ++j) if (t[i] > t[j])
    ++inversions].  A comparison with an absent entry is false. *)
Definition inversions_inner (t : list nat) (i : nat) (inversions : nat)
  : nat :=
  fold_left
    (λ inv j,
       match t !! i, t !! j with
       | Some ti, Some tj => if tj <? ti then S inv else inv
       | _, _ => inv
       end)
    (seq (i + 1) (length t - (i + 1))) inversions.

(** The outer loop: [for (i = 0; i < length - 1; ++i)]. *)
Definition inversions (t : list nat) : nat :=
  fold_left (λ inv i, inversions_inner t i inv) (seq 0 (length t - 1)) 0.

(** [gridSize % 2 ^ inversions % 2]: [%] binds tighter than [^]. *)
Definition solvable (t : list nat) : nat :=
  Nat.lxor (gridSize mod 2) (inversions t mod 2).

(** Everything after the shuffle: count, test, correct, return. *)
Definition ensureSolvable (t : list nat) : completion (list nat) :=
  if solvable t =? 0 then PhaserArray.Swap t 0 1 else Normal t.

Definition shuffleGrid (rnd : nat → nat) : completion (list nat) :=
  ensureSolvable (PhaserArray.Shuffle rnd tileNumbers0).

End Shuffle.


(** ** The game state

    Tiles are Phaser image objects: mutable, and shared between the grid,
    the input system and the tween that animates them.  They live in a
    store, and the grid holds references ([tid]) into it, so that the
    assignments [tile.row = ...] are seen through every alias. *)

Abbreviation tid := nat (only parsing).

(** A tile object: the name of the frame it displays ([tile.frame.name],
    [None] for the texture's base frame, which Phaser uses when
    [create] runs out of frame numbers) and the two fields the game
    adds. *)
Record Tile : Type := mkTile {
  frame : option nat;
  row : nat;
  col : nat
}.

(** An entry of a grid row: a hole that was never written, [null], or a
    tile. *)
Inductive cell : Type :=
  | Undefined
  | Null
  | Ref (t : tid).

#[global] Instance cell_eq_dec : EqDecision cell.
Proof. solve_decision. Defined.

#[global] Instance Tile_eq_dec : EqDecision Tile.
Proof. solve_decision. Defined.

(** The argument of [tweens.add]: the target and where it slides to (the
    pixel coordinates [newCol * tileWidth + halfWidth] are kept as the
    cell they denote).  [onComplete] is [checkWin] for every tween the game
    creates. *)
Record Tween : Type := mkTween {
  target : tid;
  toRow : nat;
  toCol : nat
}.

Record World : Type := mkWorld {
  grid : list (list cell);     (* the global [grid] *)
  tiles : list Tile;           (* the tile objects, by reference *)
  listening : bool;            (* a 'gameobjectdown' listener is installed *)
  bgmPlaying : bool;           (* [this.bgm] is playing *)
  nootIsPlaying : bool;        (* [this.noot.isPlaying] *)
  nootPlays : nat;             (* how often [this.noot.play()] ran *)
  slidePlays : nat;            (* how often 'slide-snd' was played *)
  tweens : list Tween          (* tweens added and not yet completed *)
}.

(** The state when the script has been loaded: [var grid = []]. *)
Definition loaded : World :=
  mkWorld [] [] false false false 0 0 [].

(** ** A state-and-exception monad for the handlers *)

Definition JS (A : Type) : Type := World → completion A * World.

Definition ret {A} (a : A) : JS A := λ w, (Normal a, w).

Definition throw {A} (e : exn) : JS A := λ w, (Throw e, w).

Definition bind {A B} (m : JS A) (k : A → JS B) : JS B :=
  λ w, match m w with
       | (Normal a, w') => k a w'
       | (Throw e, w') => (Throw e, w')
       end.

Notation "'let*' x ':=' m 'in' k" := (bind m (λ x, k))
  (at level 10, x pattern, m at level 100, k at level 200).
Notation "m ;; k" := (bind m (λ _, k))
  (at level 100, k at level 200, right associativity).

Definition modify (f : World → World) : JS unit := λ w, (Normal tt, f w).

(** [for (let i of l) s = body(i, s)] with the loop-carried locals [s]. *)
Fixpoint forM {S} (l : list nat) (body : nat → S → JS S) (s : S) : JS S :=
  match l with
  | [] => ret s
  | i :: l' => let* s' := body i s in forM l' body s'
  end.

(** *** Reading and writing the heap *)

Definition set_grid (g : list (list cell)) (w : World) : World :=
  mkWorld g (tiles w) (listening w) (bgmPlaying w) (nootIsPlaying w)
          (nootPlays w) (slidePlays w) (tweens w).

Definition set_tiles (ts : list Tile) (w : World) : World :=
  mkWorld (grid w) ts (listening w) (bgmPlaying w) (nootIsPlaying w)
          (nootPlays w) (slidePlays w) (tweens w).

(** [row[j]]: out of range, and in a hole, JavaScript reads [undefined]. *)
Definition js_get (r : list cell) (j : nat) : cell :=
  default Undefined (r !! j).

(** [row[j] = v]: in range the entry is overwritten; beyond the end the
    array grows, the entries in between being holes. *)
Definition js_set (r : list cell) (j : nat) (v : cell) : list cell :=
  if decide (j < length r) then <[j := v]> r
  else r ++ replicate (j - length r) Undefined ++ [v].

(** [!x] for a grid entry: objects are truthy, [null] and [undefined]
    are not. *)
Definition not_ (c : cell) : bool :=
  match c with
  | Ref _ => false
  | Null | Undefined => true
  end.

(** Dereferencing a tile, to read one of its properties.  A reference
    that denotes no object behaves like [null]: TypeError. *)
Definition getTile (t : tid) : JS Tile :=
  λ w, match tiles w !! t with
       | Some tile => (Normal tile, w)
       | None => (Throw TypeError, w)
       end.

Definition setTile (t : tid) (f : Tile → Tile) : JS unit :=
  let* tile := getTile t in
  modify (λ w, set_tiles (<[t := f tile]> (tiles w)) w).

(** [grid[r][c]]: TypeError when [grid[r]] is [undefined]. *)
Definition readCell (r c : nat) : JS cell :=
  λ w, match grid w !! r with
       | Some cells => (Normal (js_get cells c), w)
       | None => (Throw TypeError, w)
       end.

(** [grid[r][c] = v] *)
Definition writeCell (r c : nat) (v : cell) : JS unit :=
  λ w, match grid w !! r with
       | Some cells =>
           (Normal tt, set_grid (<[r := js_set cells c v]> (grid w)) w)
       | None => (Throw TypeError, w)
       end.

(** [b && e], evaluating [e] only when [b] holds. *)
Definition and_then (b : bool) (e : JS bool) : JS bool :=
  if b then e else ret false.

(** ** The scene's functions *)

Section Game.

Variable gridSize : nat.

(** *** [create] (index.js, lines 114-146) *)

(** [tileFrames.pop()]: the last entry ([undefined] on an empty array) and
    the array without it. *)
Definition pop (tileFrames : list nat) : option nat * list nat :=
  (last tileFrames, removelast tileFrames).

(** [this.add.image(x, y, 'puzzle-bg', f)] followed by [tile.row = i;
    tile.col = j]: a fresh tile object, whose reference is returned. *)
Definition addImage (f : option nat) (i j : nat) : JS tid :=
  λ w, (Normal (length (tiles w)),
        set_tiles (tiles w ++ [mkTile f i j]) w).

(** [grid.push(row)] *)
Definition gridPush (cells : list cell) : JS unit :=
  modify (λ w, set_grid (grid w ++ [cells]) w).

(** The body of the inner loop; the loop carries [tileFrames] and the row
    under construction. *)
Definition createCell (i j : nat) (st : list nat * list cell)
  : JS (list nat * list cell) :=
  if (0 <? i) || (j <? gridSize - 1) then
    let* tile := addImage (pop st.1).1 i j in
    ret ((pop st.1).2, st.2 ++ [Ref tile])
  else
    ret (st.1, st.2 ++ [Null]).

(** The body of the outer loop. *)
Definition createRow (i : nat) (tileFrames : list nat) : JS (list nat) :=
  let* st := forM (seq 0 gridSize) (createCell i) (tileFrames, []) in
  gridPush st.2 ;;
  ret st.1.

(** [create], from the shuffled tile numbers on: the grid is filled, the
    music starts and the click listener is installed. *)
Definition createFrom (tileFrames : list nat) : JS unit :=
  forM (seq 0 gridSize) createRow tileFrames ;;
  modify (λ w, mkWorld (grid w) (tiles w) true true (nootIsPlaying w)
                       (nootPlays w) (slidePlays w) (tweens w)).

Definition create (rnd : nat → nat) : JS unit :=
  match shuffleGrid gridSize rnd with
  | Normal tileFrames => createFrom tileFrames
  | Throw e => throw e
  end.

(** *** [slideTile] (index.js, lines 193-213) *)

Definition slideTile (tile : tid) (newRow newCol : nat) : JS unit :=
  (* tile.scene.tweens.add({ targets: tile, ..., onComplete: checkWin }) *)
  getTile tile ;;
  modify (λ w, mkWorld (grid w) (tiles w) (listening w) (bgmPlaying w)
                       (nootIsPlaying w) (nootPlays w) (slidePlays w)
                       (tweens w ++ [mkTween tile newRow newCol])) ;;
  (* grid[newRow][newCol] = tile *)
  writeCell newRow newCol (Ref tile) ;;
  (* grid[tile.row][tile.col] = null *)
  (let* o := getTile tile in writeCell (row o) (col o) Null) ;;
  (* tile.row = newRow; tile.col = newCol *)
  setTile tile (λ o, mkTile (frame o) newRow (col o)) ;;
  setTile tile (λ o, mkTile (frame o) (row o) newCol) ;;
  (* tile.scene.sound.play('slide-snd') *)
  modify (λ w, mkWorld (grid w) (tiles w) (listening w) (bgmPlaying w)
                       (nootIsPlaying w) (nootPlays w) (S (slidePlays w))
                       (tweens w)).

(** *** [tileClicked] (index.js, lines 162-183) *)

(** [!grid[r][c]] *)
Definition isFree (r c : nat) : JS bool :=
  let* x := readCell r c in ret (not_ x).

Definition tileClicked (tile : tid) : JS unit :=
  let* o := getTile tile in
  let* blankAbove := and_then (0 <? row o) (isFree (row o - 1) (col o)) in
  if blankAbove then slideTile tile (row o - 1) (col o)
  else
    let* blankBelow :=
      and_then (row o <? gridSize - 1) (isFree (row o + 1) (col o)) in
    if blankBelow then slideTile tile (row o + 1) (col o)
    else
      let* blankLeft := and_then (0 <? col o) (isFree (row o) (col o - 1)) in
      if blankLeft then slideTile tile (row o) (col o - 1)
      else
        let* blankRight :=
          and_then (col o <? gridSize - 1) (isFree (row o) (col o + 1)) in
        if blankRight then slideTile tile (row o) (col o + 1)
        else ret tt.

(** *** [checkWin] (index.js, lines 219-237) *)

(** The test of the inner loop:
    [grid[i][j] != null && grid[i][j].frame.name != gridSize * i + j].
    [!= null] is false for [undefined] too. *)
Definition mismatch (i j : nat) : JS bool :=
  let* x := readCell i j in
  match x with
  | Ref t =>
      let* o := getTile t in
      ret (bool_decide (frame o ≠ Some (gridSize * i + j)))
  | Null | Undefined => ret false
  end.

(** The inner loop; [true] when it hit the [return]. *)
Fixpoint checkWin_cols (i : nat) (cols : list nat) : JS bool :=
  match cols with
  | [] => ret false
  | j :: cols' =>
      let* bad := mismatch i j in
      if bad then ret true else checkWin_cols i cols'
  end.

(** [this.input.off('gameobjectdown'); this.bgm.stop();
    if (!this.noot.isPlaying) this.noot.play()] *)
Definition signalWin (w : World) : World :=
  mkWorld (grid w) (tiles w) false false true
          (if nootIsPlaying w then nootPlays w else S (nootPlays w))
          (slidePlays w) (tweens w).

(** The outer loop.  The block that ends the game sits inside it, after
    the inner loop. *)
Fixpoint checkWin_rows (rows : list nat) : JS unit :=
  match rows with
  | [] => ret tt
  | i :: rows' =>
      let* returned := checkWin_cols i (seq 0 gridSize) in
      if returned then ret tt
      else modify signalWin ;; checkWin_rows rows'
  end.

Definition checkWin : JS unit := checkWin_rows (seq 0 gridSize).

(** *** The event loop

    Phaser delivers one event at a time: a click on a tile goes to
    [tileClicked] while the listener is installed; a tween that has run
    its 600 ms calls its [onComplete], which is [checkWin]; a sound that
    has finished is no longer playing.  When each of them happens is up to
    the player and the clock, so a run is any list of events. *)

Inductive event : Type :=
  | GameObjectDown (tile : tid)
  | TweenComplete
  | NootComplete.

Definition handle (e : event) : JS unit :=
  match e with
  | GameObjectDown tile =>
      λ w, if listening w then tileClicked tile w else (Normal tt, w)
  | TweenComplete =>
      λ w, match tweens w with
           | [] => (Normal tt, w)
           | _ :: rest =>
               checkWin (mkWorld (grid w) (tiles w) (listening w)
                                 (bgmPlaying w) (nootIsPlaying w)
                                 (nootPlays w) (slidePlays w) rest)
           end
  | NootComplete =>
      modify (λ w, mkWorld (grid w) (tiles w) (listening w) (bgmPlaying w)
                           false (nootPlays w) (slidePlays w) (tweens w))
  end.

Fixpoint run (es : list event) : JS unit :=
  match es with
  | [] => ret tt
  | e :: es' => handle e ;; run es'
  end.

End Game.

(** ** Observations and predicates used in the statements *)

(** [g[i][j]] as a value, [undefined] where there is nothing. *)
Definition cellOf (g : list (list cell)) (i j : nat) : cell :=
  match g !! i with
  | Some cells => js_get cells j
  | None => Undefined
  end.

Definition cellAt (w : World) (i j : nat) : cell := cellOf (grid w) i j.

(** The frame shown in a cell, if a tile is there. *)
Definition frameAt (w : World) (i j : nat) : option nat :=
  match cellAt w i j with
  | Ref t => tiles w !! t ≫= frame
  | Null | Undefined => None
  end.

(** The grid invariant: an N-by-N array without holes, exactly one [null]
    cell, every tile object in exactly one cell, namely the one its [row]
    and [col] fields name. *)
Record grid_inv (N : nat) (w : World) : Prop := mk_grid_inv {
  inv_rows : length (grid w) = N;
  inv_cols : ∀ i cells, grid w !! i = Some cells → length cells = N;
  inv_filled : ∀ i j, i < N → j < N → cellAt w i j ≠ Undefined;
  inv_one_null :
    ∃ bi bj, cellAt w bi bj = Null
             ∧ ∀ i j, cellAt w i j = Null → i = bi ∧ j = bj;
  inv_tile_placed :
    ∀ t o, tiles w !! t = Some o → cellAt w (row o) (col o) = Ref t;
  inv_tile_once :
    ∀ i j t, cellAt w i j = Ref t →
             ∃ o, tiles w !! t = Some o ∧ row o = i ∧ col o = j
}.

(** The orthogonal neighbours [tileClicked] looks at, given its guards. *)
Definition neighbours (N : nat) (r c : nat) : list (nat * nat) :=
  (if 0 <? r then [(r - 1, c)] else [])
  ++ (if r <? N - 1 then [(r + 1, c)] else [])
  ++ (if 0 <? c then [(r, c - 1)] else [])
  ++ (if c <? N - 1 then [(r, c + 1)] else []).

(** A cell is as in the finished picture: blank, or showing the frame of
    its own index. *)
Definition atHome (N : nat) (w : World) (i j : nat) : Prop :=
  cellAt w i j = Null ∨ frameAt w i j = Some (N * i + j).

Definition solved (N : nat) (w : World) : Prop :=
  ∀ i j, i < N → j < N → atHome N w i j.

(** What [checkWin] does when it decides the game is won, seen from
    outside: clicks are no longer listened to, the music is off, the
    victory sound is on. *)
Definition winSignalled (w : World) : Prop :=
  listening w = false ∧ bgmPlaying w = false ∧ nootIsPlaying w = true.

(** The position of a non-blank cell among the non-blank cells, in
    row-major order. *)
Definition nonblankIndex (N i j : nat) : nat :=
  if i =? 0 then j else N * i + j - 1.

(** Placement in sequence order, as the specification words it: the k-th
    entry of the sequence sits in the k-th non-blank cell. *)
Definition placedInSequenceOrder (N : nat) (tileFrames : list nat)
  (w : World) : Prop :=
  ∀ i j, i < N → j < N → (0 < i ∨ j < N - 1) →
         frameAt w i j = tileFrames !! nonblankIndex N i j.

(** The correction step as the specification words it: the entries at
    indices 0 and 1 change places. *)
Definition spec_swapFirstTwo (t : list nat) : list nat :=
  match t with
  | a :: b :: rest => b :: a :: rest
  | _ => t
  end.

(** The parity rule of the specification: an even inversion count for an
    odd grid size, an odd one for an even size. *)
Definition parityRule (N : nat) (t : list nat) : Prop :=
  (Nat.Odd N → Nat.Even (inversions t))
  ∧ (Nat.Even N → Nat.Odd (inversions t)).

(** The random draws are as [Math.floor(Math.random() * (i + 1))] makes
    them. *)
Definition inRange (rnd : nat → nat) : Prop := ∀ i, rnd i ≤ i.

(** The inversion count by recursion on the sequence, for the proofs. *)
Fixpoint inv (t : list nat) : nat :=
  match t with
  | [] => 0
  | x :: rest => length (filter (λ y, y < x) rest) + inv rest
  end.

(** Tile numbers 0 and 1 exchanged. *)
Definition sigma (x : nat) : nat :=
  match x with
  | 0 => 1
  | 1 => 0
  | _ => x
  end.

(** How many tiles [create] has placed when it reaches cell (i, k): every
    cell before it in row-major order, but the blank one. *)
Definition placedBefore (N i k : nat) : nat :=
  if i =? 0 then k `min` (N - 1) else N * i + k - 1.

(** What [create] leaves in cell (i, j), given the frames it started
    from and the number [base] of objects that existed before: nothing in
    the top-right corner, elsewhere the tile created for this cell, which
    knows its place and shows the frame popped for it. *)
Definition cellOK (N base : nat) (tileFrames : list nat) (ts : list Tile)
  (i j : nat) (c : cell) : Prop :=
  if (0 <? i) || (j <? N - 1)
  then c = Ref (base + placedBefore N i j)
       ∧ ts !! (base + placedBefore N i j)
         = Some (mkTile (reverse tileFrames !! placedBefore N i j) i j)
  else c = Null.

(** The frames still in [tileFrames] when [create] reaches cell (i, k). *)
Definition remaining (N : nat) (tileFrames : list nat) (i k : nat)
  : list nat :=
  take (length tileFrames - placedBefore N i k) tileFrames.

(** The game as the page starts it: the size found in the page goes
    through the guard, then the scene is created.  When the guard throws,
    the script stops at line 30 and [gridSize] stays undeclared; [create],
    once the framework calls it, reads [gridSize] at line 99, before it
    makes any tile, and throws the same error: no game starts. *)
Definition boot (g : global) (rnd : nat → nat) : completion unit * World :=
  match gridSizeGuard g with
  | Normal n => create (Z.to_nat n) rnd loaded
  | Throw e => (Throw e, loaded)
  end.


(** The effect of sliding tile [t], found at the place its fields [o]
    name, into cell (r, c): on the cells, on the tile objects and on the
    scene. *)
Definition slid (w : World) (t : tid) (o : Tile) (r c : nat) (w' : World)
  : Prop :=
  (∀ i j, cellAt w' i j
          = if decide (i = row o ∧ j = col o) then Null
            else if decide (i = r ∧ j = c) then Ref t
            else cellAt w i j)
  ∧ tiles w' = <[t := mkTile (frame o) r c]> (tiles w)
  ∧ length (grid w') = length (grid w)
  ∧ listening w' = listening w
  ∧ bgmPlaying w' = bgmPlaying w
  ∧ nootIsPlaying w' = nootIsPlaying w
  ∧ nootPlays w' = nootPlays w
  ∧ slidePlays w' = S (slidePlays w)
  ∧ tweens w' = tweens w ++ [mkTween t r c].

(** The first neighbour, in the order [tileClicked] tries them, that is
    free. *)
Definition freeNeighbour (N : nat) (w : World) (o : Tile)
  : option (nat * nat) :=
  head (filter (λ p, not_ (cellAt w p.1 p.2) = true)
               (neighbours N (row o) (col o))).

(** A game in progress, used as the example state: the grid
    [[0, 1, _], [4, 5, 3], [6, 7, 8]] as [create] builds it when
    [shuffleGrid] returns [8; 7; 6; 3; 5; 4; 1; 0] (26 inversions). *)
Definition exampleWorld : World :=
  Eval vm_compute in (createFrom 3 [8; 7; 6; 3; 5; 4; 1; 0] loaded).2.

(** The finished picture, as [create] would build it from
    [8; 7; 6; 5; 4; 3; 1; 0] (28 inversions):
    [[0, 1, _], [3, 4, 5], [6, 7, 8]]. *)
Definition solvedWorld : World :=
  Eval vm_compute in (createFrom 3 [8; 7; 6; 5; 4; 3; 1; 0] loaded).2.

(** The world with its list of pending tweens replaced. *)
Definition set_tweens (tws : list Tween) (w : World) : World :=
  mkWorld (grid w) (tiles w) (listening w) (bgmPlaying w) (nootIsPlaying w)
          (nootPlays w) (slidePlays w) tws.

(** Every cell of row [i] is as in the finished picture. *)
Definition rowAtHome (N : nat) (w : World) (i : nat) : Prop :=
  ∀ j, j < N → atHome N w i j.

(** ** Relations between the state before and after a computation *)

(** The final state of [m] is [R]-related to the state it started in,
    whether [m] returns or throws. *)
Definition keeps {A} (R : relation World) (m : JS A) : Prop :=
  ∀ w, R w (m w).2.

(** What no handler does: change the frame a tile shows, create or lose
    a tile or a grid row, put the click listener or the music back on,
    take back a sound that was played. *)
Definition handlerStep (w w' : World) : Prop :=
  frame <$> tiles w' = frame <$> tiles w
  ∧ length (grid w') = length (grid w)
  ∧ (listening w' = true → listening w = true)
  ∧ (bgmPlaying w' = true → bgmPlaying w = true)
  ∧ nootPlays w ≤ nootPlays w'
  ∧ slidePlays w ≤ slidePlays w'.

(** What [checkWin] leaves alone: the grid, the tiles, the pending tweens,
    the slide sounds; and it never switches the listener on. *)
Definition checkStep (w w' : World) : Prop :=
  grid w' = grid w
  ∧ tiles w' = tiles w
  ∧ tweens w' = tweens w
  ∧ slidePlays w' = slidePlays w
  ∧ (listening w' = true → listening w = true).

(** Once the click listener is off, it stays off and the board stays as
    it is. *)
Definition frozenStep (w w' : World) : Prop :=
  listening w = false →
  listening w' = false ∧ grid w' = grid w ∧ tiles w' = tiles w.

(** What [create] leaves alone: the rows and tile objects that exist
    already, the sounds played and the pending tweens. *)
Definition createStep (w w' : World) : Prop :=
  grid w `prefix_of` grid w'
  ∧ tiles w `prefix_of` tiles w'
  ∧ nootIsPlaying w' = nootIsPlaying w
  ∧ nootPlays w' = nootPlays w
  ∧ slidePlays w' = slidePlays w
  ∧ tweens w' = tweens w.

(** ** The board in reading order *)

(** The frame a grid entry shows, if it is a tile. *)
Definition cellFrame (w : World) (c : cell) : option nat :=
  match c with
  | Ref t => tiles w !! t ≫= frame
  | Null | Undefined => None
  end.

(** The grid read row by row. *)
Definition flat (w : World) : list cell := mjoin (grid w).

(** The frames on the board in reading order, the blank skipped. *)
Definition board (w : World) : list nat := omap (cellFrame w) (flat w).

(** The row of the blank: the first row that holds [null]. *)
Definition blankRow (w : World) : nat :=
  default 0 (fst <$> list_find (λ cells, Null ∈ cells) (grid w)).

(** The quantity no slide changes the parity of: the inversions of the
    board, plus, for an even size, the row of the blank. *)
Definition boardEven (N : nat) (w : World) : bool :=
  Nat.even (inversions (board w) + (if Nat.even N then blankRow w else 0)).

(** Every tile shows a frame, and no two tiles the same. *)
Definition framesOk (w : World) : Prop :=
  NoDup (frame <$> tiles w) ∧ Forall is_Some (frame <$> tiles w).

(** * Properties *)

(** ** Counting inversions *)

Lemma inversions_inner_app (x : nat) (pre post : list nat) (t : list nat)
  (i acc : nat) :
  t !! i = Some x →
  fold_left
    (λ inv j,
       match t !! i, (pre ++ post) !! j with
       | Some ti, Some tj => if tj <? ti then S inv else inv
       | _, _ => inv
       end)
    (seq (length pre) (length post)) acc
  = acc + length (filter (λ y, y < x) post).
Proof.
  intros Hi. revert pre acc.
  induction post as [|y post IH]; intros pre acc; simpl.
  - lia.
  - rewrite Hi. rewrite list_lookup_middle by done.
    replace (pre ++ y :: post) with ((pre ++ [y]) ++ post)
      by (by rewrite <- app_assoc).
    specialize (IH (pre ++ [y])).
    rewrite length_app in IH. simpl in IH.
    replace (length pre + 1) with (S (length pre)) in IH by lia.
    rewrite Hi in IH. rewrite IH.
    rewrite filter_cons.
    destruct (Nat.ltb_spec y x); case_decide; simpl; lia.
Qed.

Lemma inversions_outer_app (pre l : list nat) (acc : nat) :
  fold_left (λ inv i, inversions_inner (pre ++ l) i inv)
            (seq (length pre) (length l - 1)) acc
  = acc + inv l.
Proof.
  revert pre acc. induction l as [|x l IH]; intros pre acc.
  - simpl. lia.
  - destruct l as [|y l].
    + simpl. lia.
    + specialize (IH (pre ++ [x])).
      replace (length (x :: y :: l) - 1) with (S (length (y :: l) - 1))
        by (simpl; lia).
      cbn [seq fold_left].
      replace ((pre ++ [x]) ++ y :: l) with (pre ++ x :: y :: l) in IH
        by (by rewrite <- app_assoc).
      replace (length (pre ++ [x])) with (S (length pre)) in IH
        by (rewrite length_app; simpl; lia).
      rewrite IH. unfold inversions_inner.
      replace (length (pre ++ x :: y :: l) - (length pre + 1))
        with (length (y :: l)) by (rewrite length_app; simpl; lia).
      replace (length pre + 1) with (length (pre ++ [x]))
        by (rewrite length_app; simpl; lia).
      replace (pre ++ x :: y :: l) with ((pre ++ [x]) ++ y :: l)
        by (by rewrite <- app_assoc).
      rewrite (inversions_inner_app x).
      * cbn [inv]. lia.
      * rewrite <- app_assoc. by apply list_lookup_middle.
Qed.

(** The two loops of [shuffleGrid] count the inversions of the sequence. *)
Lemma inversions_inv (t : list nat) : inversions t = inv t.
Proof. apply (inversions_outer_app [] t 0). Qed.

(** ** [indexOf] *)

Lemma indexOf_Some (l : list nat) (x i : nat) :
  PhaserArray.indexOf l x = Some i → l !! i = Some x.
Proof.
  revert i. induction l as [|y l IH]; intros i; simpl; [done|].
  case_decide as Hy.
  - intros [= <-]. by subst.
  - destruct (PhaserArray.indexOf l x) as [k|]; simpl; [|done].
    intros [= <-]. by apply IH.
Qed.

Lemma indexOf_elem (l : list nat) (x : nat) :
  x ∈ l → is_Some (PhaserArray.indexOf l x).
Proof.
  induction l as [|y l IH]; simpl.
  - by intros ?%elem_of_nil.
  - intros [->|Hin]%elem_of_cons.
    + rewrite decide_True by done. eauto.
    + case_decide; [eauto|]. destruct (IH Hin) as [k ->]. simpl. eauto.
Qed.

(** ** Exchanging two entries permutes the array *)

Lemma delete_insert_same (l : list nat) (i : nat) (y : nat) :
  delete i (<[i := y]> l) = delete i l.
Proof.
  revert i. induction l as [|x l IH]; intros [|i]; simpl; try done.
  f_equal. apply IH.
Qed.

Lemma insert_Permutation (l : list nat) (i : nat) (x y : nat) :
  l !! i = Some x → <[i := y]> l ≡ₚ y :: delete i l.
Proof.
  intros Hi.
  assert (Hlt : i < length l) by (by eapply lookup_lt_Some).
  rewrite (delete_Permutation (<[i := y]> l) i y)
    by (by apply list_lookup_insert_eq).
  by rewrite delete_insert_same.
Qed.

Lemma insert_insert_Permutation (l : list nat) (i j : nat) (x y : nat) :
  l !! i = Some x → l !! j = Some y →
  <[j := x]> (<[i := y]> l) ≡ₚ l.
Proof.
  intros Hi Hj.
  assert (Hlt : i < length l) by (by eapply lookup_lt_Some).
  destruct (decide (i = j)) as [->|Hne].
  - rewrite list_insert_insert_eq. rewrite list_insert_id; [done|congruence].
  - assert (Hj' : <[i := y]> l !! j = Some y)
      by (by rewrite list_lookup_insert_ne).
    rewrite (insert_Permutation _ j y x Hj').
    rewrite (delete_Permutation l i x Hi) at 2.
    apply Permutation_cons; [done|].
    apply (Permutation_cons_inv (a := y)).
    rewrite <- (delete_Permutation _ j y Hj').
    by apply insert_Permutation with x.
Qed.

Lemma exchange_Permutation (l : list nat) (i j : nat) :
  PhaserArray.exchange l i j ≡ₚ l.
Proof.
  unfold PhaserArray.exchange.
  destruct (l !! i) as [x|] eqn:Hi; [|done].
  destruct (l !! j) as [y|] eqn:Hj; [|done].
  by apply insert_insert_Permutation.
Qed.

Lemma Shuffle_from_Permutation (rnd : nat → nat) (i : nat) (l : list nat) :
  PhaserArray.Shuffle_from rnd i l ≡ₚ l.
Proof.
  revert l. induction i as [|i IH]; intros l; simpl; [done|].
  rewrite IH. apply exchange_Permutation.
Qed.

(** The Fisher-Yates loop returns a permutation of its input. *)
Lemma Shuffle_Permutation (rnd : nat → nat) (l : list nat) :
  PhaserArray.Shuffle rnd l ≡ₚ l.
Proof. apply Shuffle_from_Permutation. Qed.

(** ** The tile numbers before the shuffle *)

Lemma Remove_Permutation (l : list nat) (x : nat) :
  x ∈ l → l ≡ₚ x :: PhaserArray.Remove l x.
Proof.
  intros Hx. unfold PhaserArray.Remove.
  destruct (indexOf_elem l x Hx) as [i Hi]. rewrite Hi.
  apply delete_Permutation. by apply indexOf_Some.
Qed.

Lemma tileNumbers0_Permutation (N : nat) :
  1 ≤ N → seq 0 (N * N) ≡ₚ (N - 1) :: tileNumbers0 N.
Proof.
  intros HN. unfold tileNumbers0, PhaserArray.NumberArray.
  replace (S (N * N - 1) - 0) with (N * N) by nia.
  apply Remove_Permutation. apply elem_of_seq. nia.
Qed.

Lemma tileNumbers0_elem (N v : nat) :
  1 ≤ N → v ∈ tileNumbers0 N ↔ v < N * N ∧ v ≠ N - 1.
Proof.
  intros HN. pose proof (tileNumbers0_Permutation N HN) as HP.
  assert (HND : NoDup ((N - 1) :: tileNumbers0 N))
    by (rewrite <- HP; apply NoDup_seq).
  apply NoDup_cons in HND as [Hnot _].
  split.
  - intros Hv. split.
    + assert (v ∈ seq 0 (N * N)) as Hs
        by (rewrite HP; by apply list_elem_of_further).
      apply elem_of_seq in Hs. lia.
    + intros ->. done.
  - intros [Hlt Hne].
    assert (v ∈ seq 0 (N * N)) as Hs by (apply elem_of_seq; lia).
    rewrite HP in Hs. apply elem_of_cons in Hs as [?|?]; [lia|done].
Qed.

Lemma tileNumbers0_NoDup (N : nat) : 1 ≤ N → NoDup (tileNumbers0 N).
Proof.
  intros HN.
  assert (HND : NoDup ((N - 1) :: tileNumbers0 N))
    by (rewrite <- (tileNumbers0_Permutation N HN); apply NoDup_seq).
  by apply NoDup_cons in HND as [_ ?].
Qed.

Lemma tileNumbers0_length (N : nat) :
  1 ≤ N → length (tileNumbers0 N) = N * N - 1.
Proof.
  intros HN. pose proof (tileNumbers0_Permutation N HN) as HP.
  apply Permutation_length in HP. rewrite length_seq in HP.
  simpl in HP. lia.
Qed.

(** ** The correction step *)

(** On an array without repetitions, [Swap(array, 0, 1)] renames 0 to 1
    and 1 to 0 and leaves every other entry alone. *)
Lemma Swap_sigma (t : list nat) (i1 i2 : nat) :
  NoDup t → t !! i1 = Some 0 → t !! i2 = Some 1 →
  <[i2 := 0]> (<[i1 := 1]> t) = sigma <$> t.
Proof.
  intros HND H0 H1. apply list_eq. intros k.
  assert (i1 < length t) by (by eapply lookup_lt_Some).
  assert (i2 < length t) by (by eapply lookup_lt_Some).
  rewrite list_lookup_fmap.
  destruct (decide (k = i2)) as [->|Hk2].
  - rewrite list_lookup_insert_eq by (by rewrite length_insert).
    by rewrite H1.
  - rewrite list_lookup_insert_ne by done.
    destruct (decide (k = i1)) as [->|Hk1].
    + rewrite list_lookup_insert_eq by done. by rewrite H0.
    + rewrite list_lookup_insert_ne by done.
      destruct (t !! k) as [v|] eqn:Hv; [|done]. simpl. f_equal.
      destruct v as [|[|v]]; [| |done].
      * exfalso. apply Hk1. by eapply NoDup_lookup.
      * exfalso. apply Hk2. by eapply NoDup_lookup.
Qed.

Lemma ensureSolvable_cases (N : nat) (t : list nat) :
  NoDup t → 0 ∈ t → 1 ∈ t →
  (solvable N t ≠ 0 ∧ ensureSolvable N t = Normal t)
  ∨ (solvable N t = 0 ∧ ensureSolvable N t = Normal (sigma <$> t)).
Proof.
  intros HND H0 H1. unfold ensureSolvable.
  destruct (Nat.eqb_spec (solvable N t) 0) as [Hs|Hs]; [right|left; done].
  split; [done|]. unfold PhaserArray.Swap.
  rewrite decide_False by done.
  destruct (indexOf_elem t 0 H0) as [i1 Hi1].
  destruct (indexOf_elem t 1 H1) as [i2 Hi2].
  rewrite Hi1, Hi2. f_equal.
  apply Swap_sigma; [done| |]; by apply indexOf_Some.
Qed.

Lemma sigma_Permutation (t : list nat) :
  NoDup t → 0 ∈ t → 1 ∈ t → sigma <$> t ≡ₚ t.
Proof.
  intros HND H0 H1.
  destruct (indexOf_elem t 0 H0) as [i1 Hi1%indexOf_Some].
  destruct (indexOf_elem t 1 H1) as [i2 Hi2%indexOf_Some].
  rewrite <- (Swap_sigma t i1 i2) by done.
  by apply insert_insert_Permutation.
Qed.

(** ** The correction changes the inversion count by exactly one *)

Lemma count_one (P : nat → Prop) `{!∀ y, Decision (P y)} (a : nat)
  (t : list nat) :
  NoDup t → (∀ y, P y ↔ y = a) →
  length (filter P t) = if decide (a ∈ t) then 1 else 0.
Proof.
  intros HND HP. induction t as [|x t IH].
  - rewrite decide_False; [done|]. apply not_elem_of_nil.
  - apply NoDup_cons in HND as [Hx HND]. specialize (IH HND).
    rewrite filter_cons.
    destruct (decide (P x)) as [Hpx|Hpx]; cbn [length]; rewrite IH.
    + apply HP in Hpx. subst x.
      destruct (decide (a ∈ t)); [done|].
      destruct (decide (a ∈ a :: t)) as [|Hn]; [done|].
      exfalso. apply Hn, list_elem_of_here.
    + assert (x ≠ a) by (intros ->; by apply Hpx, HP).
      destruct (decide (a ∈ t)) as [Ha|Ha];
        destruct (decide (a ∈ x :: t)) as [Ha'|Ha']; try done.
      * exfalso. by apply Ha', list_elem_of_further.
      * apply elem_of_cons in Ha' as [?|?]; [by subst|done].
Qed.

Lemma length_filter_fmap (f : nat → nat) (P : nat → Prop)
  `{!∀ y, Decision (P y)} (t : list nat) :
  length (filter P (f <$> t)) = length (filter (λ y, P (f y)) t).
Proof.
  induction t as [|y t IH]; [done|].
  rewrite fmap_cons, !filter_cons.
  destruct (decide (P (f y))); simpl; by rewrite IH.
Qed.

Lemma count_below_sigma (x : nat) (t : list nat) :
  2 ≤ x →
  length (filter (λ y, y < x) (sigma <$> t))
  = length (filter (λ y, y < x) t).
Proof.
  intros Hx. induction t as [|y t IH]; [done|].
  rewrite fmap_cons, !filter_cons.
  assert (sigma y < x ↔ y < x) as Hiff
    by (destruct y as [|[|y]]; simpl; lia).
  destruct (decide (sigma y < x)), (decide (y < x)); simpl; try tauto;
    by rewrite IH.
Qed.

Lemma inv_sigma (t : list nat) :
  NoDup t →
  if decide (0 ∈ t ∧ 1 ∈ t)
  then inv (sigma <$> t) = S (inv t) ∨ inv t = S (inv (sigma <$> t))
  else inv (sigma <$> t) = inv t.
Proof.
  induction t as [|x t IH]; intros HND.
  - rewrite decide_False; [done|]. intros [?%elem_of_nil _]. done.
  - apply NoDup_cons in HND as [Hx HND]. specialize (IH HND).
    rewrite fmap_cons. cbn [inv].
    destruct x as [|[|x]].
    + (* 0 comes first: it is below nothing, and 1 is below the 1s *)
      rewrite decide_False in IH by tauto.
      replace (filter (λ y, y < 0) t) with (@nil nat).
      2:{ symmetry. clear. induction t as [|y t IH]; [done|].
          rewrite filter_cons. destruct (decide (y < 0)); [lia|done]. }
      cbn [sigma].
      rewrite length_filter_fmap.
      rewrite (count_one _ 1 t HND).
      2:{ intros [|[|y]]; simpl; lia. }
      rewrite IH. simpl.
      destruct (decide (1 ∈ t)) as [H1|H1].
      * rewrite decide_True; [left; lia|].
        split; [apply list_elem_of_here|by apply list_elem_of_further].
      * rewrite decide_False; [lia|].
        intros [_ [?|?]%elem_of_cons]; [lia|done].
    + rewrite decide_False in IH by tauto.
      cbn [sigma].
      replace (filter (λ y, y < 0) (sigma <$> t)) with (@nil nat).
      2:{ symmetry. clear. induction t as [|y t IH]; [done|].
          rewrite fmap_cons, filter_cons.
          destruct (decide (sigma y < 0)); [lia|done]. }
      rewrite (count_one _ 0 t HND).
      2:{ intros y; lia. }
      rewrite IH. simpl.
      destruct (decide (0 ∈ t)) as [H0|H0].
      * rewrite decide_True; [right; lia|].
        split; [by apply list_elem_of_further|apply list_elem_of_here].
      * rewrite decide_False; [lia|].
        intros [[?|?]%elem_of_cons _]; [lia|done].
    + cbn [sigma]. rewrite count_below_sigma by lia.
      destruct (decide (0 ∈ t ∧ 1 ∈ t)) as [H01|H01].
      * rewrite decide_True; [lia|].
        destruct H01; split; by apply list_elem_of_further.
      * rewrite decide_False; [lia|].
        intros [[?|?]%elem_of_cons [?|?]%elem_of_cons]; try lia; tauto.
Qed.

(** ** The parity rule *)

Lemma solvable_parityRule (N : nat) (t : list nat) :
  solvable N t ≠ 0 ↔ parityRule N t.
Proof.
  unfold solvable, parityRule.
  pose proof (Nat.mod_upper_bound N 2) as HN.
  pose proof (Nat.mod_upper_bound (inversions t) 2) as HI.
  pose proof (Nat.div_mod_eq N 2) as EN.
  pose proof (Nat.div_mod_eq (inversions t) 2) as EI.
  destruct (N mod 2) as [|[|?]] eqn:HNm; [| |lia];
    destruct (inversions t mod 2) as [|[|?]] eqn:HIm; try lia; simpl.
  - split; [done|]. intros [_ H].
    destruct H as [m Hm]; [exists (N / 2); lia|lia].
  - split; [intros _|done].
    split; [intros [m Hm]; lia|intros _; exists (inversions t / 2); lia].
  - split; [intros _|done].
    split; [intros _; exists (inversions t / 2); lia|intros [m Hm]; lia].
  - split; [done|]. intros [H _].
    destruct H as [m Hm]; [exists (N / 2); lia|lia].
Qed.

Lemma tiles_have_0_and_1 (N : nat) (p : list nat) :
  3 ≤ N → p ≡ₚ tileNumbers0 N → NoDup p ∧ 0 ∈ p ∧ 1 ∈ p.
Proof.
  intros HN HP. split; [|split].
  - rewrite HP. apply tileNumbers0_NoDup. lia.
  - rewrite HP. apply tileNumbers0_elem; nia.
  - rewrite HP. apply tileNumbers0_elem; nia.
Qed.

Lemma ensureSolvable_parity (N : nat) (p : list nat) :
  3 ≤ N → p ≡ₚ tileNumbers0 N →
  ∃ t, ensureSolvable N p = Normal t ∧ t ≡ₚ p ∧ parityRule N t.
Proof.
  intros HN HP.
  destruct (tiles_have_0_and_1 N p HN HP) as (HND & H0 & H1).
  destruct (ensureSolvable_cases N p HND H0 H1) as [[Hs ->]|[Hs ->]].
  - exists p. split; [done|]. split; [done|]. by apply solvable_parityRule.
  - exists (sigma <$> p). split; [done|].
    split; [by apply sigma_Permutation|].
    apply solvable_parityRule.
    pose proof (inv_sigma p HND) as Hinv.
    rewrite decide_True in Hinv by done.
    unfold solvable in *. rewrite !inversions_inv in *.
    pose proof (Nat.mod_upper_bound N 2) as HNu.
    pose proof (Nat.mod_upper_bound (inv p) 2) as HIu.
    pose proof (Nat.mod_upper_bound (inv (sigma <$> p)) 2) as HJu.
    pose proof (Nat.div_mod_eq (inv p) 2) as EI.
    pose proof (Nat.div_mod_eq (inv (sigma <$> p)) 2) as EJ.
    destruct (N mod 2) as [|[|?]]; [| |lia];
      destruct (inv p mod 2) as [|[|?]]; try lia; try done;
      destruct (inv (sigma <$> p) mod 2) as [|[|?]]; try lia; try done.
Qed.

Lemma shuffleGrid_Permutation (N : nat) (rnd : nat → nat) :
  3 ≤ N →
  ∃ t, shuffleGrid N rnd = Normal t
       ∧ t ≡ₚ tileNumbers0 N ∧ parityRule N t.
Proof.
  intros HN. unfold shuffleGrid.
  destruct (ensureSolvable_parity N
              (PhaserArray.Shuffle rnd (tileNumbers0 N)) HN)
    as (t & Ht & HP & Hr); [apply Shuffle_Permutation|].
  rewrite Shuffle_Permutation in HP. eauto.
Qed.

(** C4 (amended).  For every grid size N >= 3 and every post-shuffle
    permutation of the tile numbers, the sequence that comes out of the
    correction step satisfies the parity rule: an even inversion count for
    odd N, an odd one for even N; so does what [shuffleGrid] returns for
    every outcome of the random draws. *)
Theorem shuffleGrid_satisfies_parity_rule (N : nat) :
  3 ≤ N →
  (∀ p, p ≡ₚ tileNumbers0 N →
        ∃ t, ensureSolvable N p = Normal t ∧ parityRule N t)
  ∧ (∀ rnd, inRange rnd →
            ∃ t, shuffleGrid N rnd = Normal t ∧ parityRule N t).
Proof.
  intros HN. split.
  - intros p HP.
    destruct (ensureSolvable_parity N p HN HP) as (t & Ht & _ & Hr). eauto.
  - intros rnd _.
    destruct (shuffleGrid_Permutation N rnd HN) as (t & Ht & _ & Hr). eauto.
Qed.

Lemma shuffleGrid_satisfies_parity_rule_witness :
  let p := [15; 14; 13; 12; 11; 10; 9; 8; 7; 6; 5; 4; 2; 1; 0] in
  3 ≤ 4
  ∧ p ≡ₚ tileNumbers0 4
  ∧ inRange (λ i, i)
  ∧ (∃ t, ensureSolvable 4 p = Normal t ∧ parityRule 4 t)
  ∧ (∃ t, shuffleGrid 4 (λ i, i) = Normal t ∧ parityRule 4 t).
Proof.
  intros p.
  assert (H4 : 3 ≤ 4) by lia.
  assert (HP : p ≡ₚ tileNumbers0 4)
    by (apply (bool_decide_unpack _); vm_compute; reflexivity).
  assert (Hrnd : inRange (λ i, i)) by (intros i; lia).
  destruct (shuffleGrid_satisfies_parity_rule 4 H4) as [Hperm Hshuffle].
  split; [done|]. split; [done|]. split; [done|].
  split; [exact (Hperm p HP)|exact (Hshuffle (λ i, i) Hrnd)].
Defined.

(** C4, as stated, fails for N = 2: the tile numbers are 0, 2 and 3, and
    when the shuffle leaves an even number of inversions the correction
    looks for the tile number 1, which is the blank's, and throws. *)
Lemma shuffleGrid_size_2_throws :
  inRange (λ _, 0)
  ∧ PhaserArray.Shuffle (λ _, 0) (tileNumbers0 2) = [2; 3; 0]
  ∧ ¬ ∃ t, shuffleGrid 2 (λ _, 0) = Normal t ∧ parityRule 2 t.
Proof.
  split; [intros i; lia|]. split; [reflexivity|].
  intros (t & Ht & _). vm_compute in Ht. discriminate.
Qed.

(** C5 (amended).  For every grid size N >= 3 and every outcome of the
    random draws, [shuffleGrid] returns N*N-1 distinct numbers: exactly
    the numbers below N*N other than N-1, the blank's. *)
Theorem shuffleGrid_returns_the_tiles (N : nat) (rnd : nat → nat) :
  3 ≤ N → inRange rnd →
  ∃ t, shuffleGrid N rnd = Normal t
       ∧ length t = N * N - 1
       ∧ NoDup t
       ∧ ∀ v, v ∈ t ↔ v < N * N ∧ v ≠ N - 1.
Proof.
  intros HN _.
  destruct (shuffleGrid_Permutation N rnd HN) as (t & Ht & HP & _).
  exists t. split; [done|]. split; [|split].
  - rewrite HP. apply tileNumbers0_length. lia.
  - rewrite HP. apply tileNumbers0_NoDup. lia.
  - intros v. rewrite HP. apply tileNumbers0_elem. lia.
Qed.

Lemma shuffleGrid_returns_the_tiles_witness :
  3 ≤ 3
  ∧ inRange (λ i, i - 1)
  ∧ ∃ t, shuffleGrid 3 (λ i, i - 1) = Normal t
         ∧ length t = 3 * 3 - 1
         ∧ NoDup t
         ∧ ∀ v, v ∈ t ↔ v < 3 * 3 ∧ v ≠ 3 - 1.
Proof.
  split; [lia|]. split; [intros i; lia|].
  apply (shuffleGrid_returns_the_tiles 3); [lia|intros i; lia].
Defined.

(** C5, as stated, fails for N = 2: with the draws that leave the array
    as it is, [shuffleGrid] returns no sequence at all. *)
Lemma shuffleGrid_size_2_returns_nothing :
  inRange (λ i, i)
  ∧ PhaserArray.Shuffle (λ i, i) (tileNumbers0 2) = [0; 2; 3]
  ∧ ¬ ∃ t, shuffleGrid 2 (λ i, i) = Normal t ∧ length t = 2 * 2 - 1.
Proof.
  split; [intros i; lia|]. split; [reflexivity|].
  intros (t & Ht & _). vm_compute in Ht. discriminate.
Qed.

(** C3 (amended).  When the shuffled sequence fails the parity rule, the
    correction exchanges the entries whose VALUES are 0 and 1, the two
    lowest tile numbers, wherever they are in the sequence; no other entry
    changes. *)
Theorem ensureSolvable_exchanges_0_and_1 (N : nat) (p : list nat) :
  3 ≤ N → p ≡ₚ tileNumbers0 N → ¬ parityRule N p →
  ∃ t, ensureSolvable N p = Normal t
       ∧ length t = length p
       ∧ (∀ k, p !! k = Some 0 → t !! k = Some 1)
       ∧ (∀ k, p !! k = Some 1 → t !! k = Some 0)
       ∧ (∀ k v, p !! k = Some v → 2 ≤ v → t !! k = Some v).
Proof.
  intros HN HP Hrule.
  destruct (tiles_have_0_and_1 N p HN HP) as (HND & H0 & H1).
  destruct (ensureSolvable_cases N p HND H0 H1) as [[Hs _]|[_ ->]].
  { exfalso. by apply Hrule, solvable_parityRule. }
  exists (sigma <$> p). split; [done|].
  split; [by rewrite length_fmap|].
  repeat split; intros k; [| |intros v]; intros Hk; try intros Hv;
    rewrite list_lookup_fmap, Hk; simpl; [done|done|].
  by destruct v as [|[|v]]; [lia|lia|].
Qed.

Lemma ensureSolvable_exchanges_0_and_1_witness :
  let p := [3; 1; 0; 4; 5; 6; 7; 8] in
  3 ≤ 3 ∧ p ≡ₚ tileNumbers0 3 ∧ ¬ parityRule 3 p
  ∧ ∃ t, ensureSolvable 3 p = Normal t
         ∧ length t = length p
         ∧ (∀ k, p !! k = Some 0 → t !! k = Some 1)
         ∧ (∀ k, p !! k = Some 1 → t !! k = Some 0)
         ∧ (∀ k v, p !! k = Some v → 2 ≤ v → t !! k = Some v).
Proof.
  intros p.
  assert (H3 : 3 ≤ 3) by lia.
  assert (HP : p ≡ₚ tileNumbers0 3)
    by (apply (bool_decide_unpack _); vm_compute; reflexivity).
  assert (HR : ¬ parityRule 3 p).
  { intros [H _]. destruct H as [m Hm]; [exists 1; lia|].
    assert (E : inversions p = 3) by reflexivity. lia. }
  split; [done|]. split; [done|]. split; [done|].
  exact (ensureSolvable_exchanges_0_and_1 3 p H3 HP HR).
Defined.

(** C3, as stated, fails: the shuffle can leave [3; 1; 0; 4; ...], which
    has three inversions; the correction returns [3; 0; 1; 4; ...], not
    the sequence with its first two entries exchanged. *)
Lemma correction_is_not_at_indices_0_and_1 :
  let rnd := λ i, if decide (i = 2) then 0 else i in
  let p := PhaserArray.Shuffle rnd (tileNumbers0 3) in
  inRange rnd
  ∧ p = [3; 1; 0; 4; 5; 6; 7; 8]
  ∧ ¬ parityRule 3 p
  ∧ shuffleGrid 3 rnd = Normal [3; 0; 1; 4; 5; 6; 7; 8]
  ∧ shuffleGrid 3 rnd ≠ Normal (spec_swapFirstTwo p).
Proof.
  intros rnd p. split; [|split; [|split; [|split]]].
  - intros i. unfold rnd. case_decide; lia.
  - reflexivity.
  - intros [H _]. destruct H as [m Hm]; [exists 1; lia|].
    assert (E : inversions p = 3) by reflexivity. lia.
  - reflexivity.
  - vm_compute. discriminate.
Qed.

(** ** Loops *)

Lemma forM_inv {St} (I : nat → St → World → Prop) (l : list nat)
  (body : nat → St → JS St) (s : St) (w : World) :
  I 0 s w →
  (∀ k i s w, l !! k = Some i → I k s w →
              ∃ s' w', body i s w = (Normal s', w') ∧ I (S k) s' w') →
  ∃ s' w', forM l body s w = (Normal s', w') ∧ I (length l) s' w'.
Proof.
  revert I s w. induction l as [|i l IH]; intros I s w H0 Hstep.
  - simpl. eauto.
  - destruct (Hstep 0 i s w eq_refl H0) as (s1 & w1 & Hb & H1).
    destruct (IH (λ k, I (S k)) s1 w1 H1) as (s2 & w2 & Hf & H2).
    { intros k j s' w' Hk HI. by apply (Hstep (S k) j s' w'). }
    exists s2, w2. split; [|done].
    simpl. unfold bind. by rewrite Hb.
Qed.

(** ** Popping frames off the end *)

Lemma last_take_reverse (l : list nat) (q : nat) :
  last (take (length l - q) l) = reverse l !! q.
Proof.
  rewrite last_lookup, length_take.
  destruct (decide (q < length l)) as [Hq|Hq].
  - rewrite reverse_lookup by done.
    rewrite lookup_take_lt by lia. f_equal. lia.
  - replace (length l - q) with 0 by lia. simpl.
    symmetry. apply lookup_ge_None. rewrite length_reverse. lia.
Qed.

Lemma removelast_take (l : list nat) (q : nat) :
  removelast (take (length l - q) l) = take (length l - S q) l.
Proof.
  rewrite removelast_firstn_len, length_take, take_take. f_equal. lia.
Qed.

Lemma placedBefore_next (N i k : nat) :
  1 ≤ N → k < N →
  placedBefore N i (S k)
  = if (0 <? i) || (k <? N - 1) then S (placedBefore N i k)
    else placedBefore N i k.
Proof.
  intros HN Hk. unfold placedBefore.
  destruct (Nat.eqb_spec i 0), (Nat.ltb_spec 0 i),
    (Nat.ltb_spec k (N - 1)); cbn [orb]; nia.
Qed.

Lemma placedBefore_row (N i : nat) :
  1 ≤ N → placedBefore N i N = placedBefore N (S i) 0.
Proof.
  intros HN. unfold placedBefore.
  destruct (Nat.eqb_spec i 0); cbn [Nat.eqb]; nia.
Qed.

(** ** [create] fills the grid from the end of the sequence *)

Lemma cellOK_prefix (N base : nat) (tf : list nat) (ts ts' : list Tile)
  (i j : nat) (c : cell) :
  ts `prefix_of` ts' → cellOK N base tf ts i j c → cellOK N base tf ts' i j c.
Proof.
  intros [more ->]. unfold cellOK.
  destruct ((0 <? i) || (j <? N - 1)); [|done].
  intros (-> & Ht). split; [done|].
  by apply lookup_app_l_Some.
Qed.

Section CreateLoops.

Variable N : nat.
Variable tf0 : list nat.
Variable base : nat.
Hypothesis N_pos : 1 ≤ N.

Lemma createCell_step (i k : nat) (cells : list cell) (w : World) :
  k < N →
  length (tiles w) = base + placedBefore N i k →
  ∃ c w',
    createCell N i k (remaining N tf0 i k, cells) w
    = (Normal (remaining N tf0 i (S k), cells ++ [c]), w')
    ∧ grid w' = grid w
    ∧ tiles w `prefix_of` tiles w'
    ∧ length (tiles w') = base + placedBefore N i (S k)
    ∧ cellOK N base tf0 (tiles w') i k c.
Proof.
  intros Hk Hlen. unfold createCell, remaining, cellOK.
  rewrite (placedBefore_next N i k) by done.
  destruct ((0 <? i) || (k <? N - 1)) eqn:Hnb; cbn [fst snd].
  - eexists (Ref (length (tiles w))), _. unfold bind, addImage, ret, pop.
    cbn [fst snd]. rewrite removelast_take. split; [done|].
    cbn [set_tiles grid tiles]. split; [done|].
    split; [by apply prefix_app_r|].
    split; [rewrite length_app; simpl; lia|].
    rewrite <- Hlen. split; [done|].
    rewrite last_take_reverse. by apply list_lookup_middle.
  - exists Null, w. unfold ret. done.
Qed.

Lemma createRow_step (i : nat) (w : World) :
  length (tiles w) = base + placedBefore N i 0 →
  ∃ cells w',
    createRow N i (remaining N tf0 i 0) w
    = (Normal (remaining N tf0 (S i) 0), w')
    ∧ grid w' = grid w ++ [cells]
    ∧ length cells = N
    ∧ tiles w `prefix_of` tiles w'
    ∧ length (tiles w') = base + placedBefore N (S i) 0
    ∧ ∀ j c, cells !! j = Some c → cellOK N base tf0 (tiles w') i j c.
Proof.
  intros Hbase. unfold createRow.
  destruct (forM_inv
    (λ k (st : list nat * list cell) w',
       st.1 = remaining N tf0 i k ∧ length st.2 = k ∧ grid w' = grid w
       ∧ tiles w `prefix_of` tiles w'
       ∧ length (tiles w') = base + placedBefore N i k
       ∧ ∀ j c, st.2 !! j = Some c → cellOK N base tf0 (tiles w') i j c)
    (seq 0 N) (createCell N i) (remaining N tf0 i 0, []) w)
    as ([tf cells] & w1 & Hrun & Htf & Hlen & Hg & Hpre & Hts & Hok).
  { cbn [fst snd]. repeat split; done. }
  { intros k j [tf cells] w1 Hj (Htf & Hlen & Hg & Hpre & Hts & Hok).
    cbn [fst snd] in *. apply lookup_seq in Hj as [-> Hk]. simpl.
    subst tf.
    destruct (createCell_step i k cells w1 Hk Hts)
      as (c & w2 & Hcell & Hg2 & Hpre2 & Hts2 & Hc).
    eexists _, w2. split; [exact Hcell|]. cbn [fst snd].
    split; [done|]. split; [rewrite length_app; simpl; lia|].
    split; [congruence|]. split; [by etrans|]. split; [done|].
    intros j c' Hj. apply lookup_app_Some in Hj as [Hj|[Hge Hj]].
    - eapply cellOK_prefix; [exact Hpre2|]. by apply Hok.
    - apply list_lookup_singleton_Some in Hj as [Hj ->].
      replace j with k by lia. done. }
  rewrite length_seq in *. cbn [fst snd] in *. subst tf.
  exists cells, (set_grid (grid w1 ++ [cells]) w1).
  unfold bind. rewrite Hrun. cbn [fst snd gridPush modify ret].
  unfold remaining. rewrite (placedBefore_row N i N_pos).
  split; [done|]. cbn [set_grid grid tiles]. rewrite Hg.
  rewrite <- (placedBefore_row N i N_pos). done.
Qed.

Lemma createFrom_grid (w : World) :
  grid w = [] → length (tiles w) = base →
  ∃ w',
    createFrom N tf0 w = (Normal tt, w')
    ∧ length (grid w') = N
    ∧ length (tiles w') = base + (N * N - 1)
    ∧ ∀ i cells, grid w' !! i = Some cells →
        length cells = N
        ∧ ∀ j c, cells !! j = Some c →
                 cellOK N base tf0 (tiles w') i j c.
Proof.
  intros Hempty Hbase. unfold createFrom.
  destruct (forM_inv
    (λ i (tf : list nat) w',
       tf = remaining N tf0 i 0 ∧ length (grid w') = i
       ∧ length (tiles w') = base + placedBefore N i 0
       ∧ ∀ i' cells, grid w' !! i' = Some cells →
           length cells = N
           ∧ ∀ j c, cells !! j = Some c →
                    cellOK N base tf0 (tiles w') i' j c)
    (seq 0 N) (createRow N) tf0 w)
    as (tf & w1 & Hrun & Htf & Hlen & Hts & Hok).
  { split; [|split; [|split]].
    - unfold remaining, placedBefore. simpl.
      rewrite Nat.sub_0_r. by rewrite firstn_all.
    - by rewrite Hempty.
    - unfold placedBefore. simpl. lia.
    - intros i' cells. by rewrite Hempty, lookup_nil. }
  { intros k i tf w1 Hi (Htf & Hlen & Hts & Hok).
    apply lookup_seq in Hi as [-> Hk]. simpl. subst tf.
    destruct (createRow_step k w1 Hts)
      as (cells & w2 & Hrow & Hg & Hcl & Hpre & Hts2 & Hc).
    exists (remaining N tf0 (S k) 0), w2. split; [done|]. split; [done|].
    split; [rewrite Hg, length_app; simpl; lia|]. split; [done|].
    intros i' cells' Hi'. rewrite Hg in Hi'.
    apply lookup_app_Some in Hi' as [Hi'|[Hge Hi']].
    - destruct (Hok i' cells' Hi') as [Hl Hcells]. split; [done|].
      intros j c Hj. eapply cellOK_prefix; [exact Hpre|]. by apply Hcells.
    - apply list_lookup_singleton_Some in Hi' as [Hi' ->].
      replace i' with k by lia. done. }
  rewrite length_seq in *.
  eexists. unfold bind. rewrite Hrun. cbn [modify].
  split; [done|]. cbn [grid tiles]. split; [done|].
  split; [|done]. rewrite Hts. unfold placedBefore.
  destruct (Nat.eqb_spec N 0); nia.
Qed.

End CreateLoops.

Lemma createFrom_cells (N : nat) (tileFrames : list nat) (w0 : World) :
  1 ≤ N → grid w0 = [] →
  ∃ w, createFrom N tileFrames w0 = (Normal tt, w)
       ∧ length (grid w) = N
       ∧ length (tiles w) = length (tiles w0) + (N * N - 1)
       ∧ (∀ i cells, grid w !! i = Some cells → length cells = N)
       ∧ ∀ i j, i < N → j < N →
                cellOK N (length (tiles w0)) tileFrames (tiles w) i j
                       (cellAt w i j).
Proof.
  intros HN Hempty.
  destruct (createFrom_grid N tileFrames (length (tiles w0)) HN w0 Hempty
              eq_refl)
    as (w & Hrun & Hlen & Hts & Hrows).
  exists w. split; [done|]. split; [done|]. split; [done|].
  split; [intros i cells Hi; by apply (Hrows i cells)|].
  intros i j Hi Hj. unfold cellAt, cellOf.
  destruct (lookup_lt_is_Some_2 (grid w) i) as [cells Hcells]; [lia|].
  rewrite Hcells. destruct (Hrows i cells Hcells) as [Hl Hok].
  destruct (lookup_lt_is_Some_2 cells j) as [c Hc]; [lia|].
  unfold js_get. rewrite Hc. simpl. by apply Hok.
Qed.

(** C2 (amended).  [create] takes the frames off the END of the sequence
    that [shuffleGrid] returned: the k-th non-blank cell in row-major
    order holds a tile showing the k-th entry of the REVERSED sequence
    (and knowing its own row and column), and cell (0, N-1) is left
    blank. *)
Theorem create_places_frames_from_the_end (N : nat) (tileFrames : list nat)
  (w0 : World) :
  1 ≤ N → grid w0 = [] →
  ∃ w, createFrom N tileFrames w0 = (Normal tt, w)
       ∧ cellAt w 0 (N - 1) = Null
       ∧ (∀ i j, i < N → j < N → (0 < i ∨ j < N - 1) →
            ∃ t o, cellAt w i j = Ref t ∧ tiles w !! t = Some o
                   ∧ row o = i ∧ col o = j)
       ∧ placedInSequenceOrder N (reverse tileFrames) w.
Proof.
  intros HN Hempty.
  destruct (createFrom_cells N tileFrames w0 HN Hempty)
    as (w & Hrun & _ & _ & _ & Hok).
  exists w. split; [done|]. split; [|split].
  - specialize (Hok 0 (N - 1)). unfold cellOK in Hok.
    rewrite !Nat.ltb_irrefl in Hok. apply Hok; lia.
  - intros i j Hi Hj Hnb. specialize (Hok i j Hi Hj). unfold cellOK in Hok.
    replace ((0 <? i) || (j <? N - 1)) with true in Hok
      by (destruct (Nat.ltb_spec 0 i), (Nat.ltb_spec j (N - 1)); simpl; lia).
    destruct Hok as (Hc & Ht). eexists _, _.
    split; [done|]. split; [exact Ht|]. done.
  - intros i j Hi Hj Hnb. specialize (Hok i j Hi Hj). unfold cellOK in Hok.
    replace ((0 <? i) || (j <? N - 1)) with true in Hok
      by (destruct (Nat.ltb_spec 0 i), (Nat.ltb_spec j (N - 1)); simpl; lia).
    destruct Hok as (Hc & Ht). unfold frameAt. rewrite Hc.
    cbv beta iota. rewrite Ht. simpl.
    f_equal. unfold placedBefore, nonblankIndex.
    destruct (Nat.eqb_spec i 0); lia.
Qed.

Lemma create_places_frames_from_the_end_witness :
  let tileFrames := [8; 7; 6; 3; 5; 4; 1; 0] in
  1 ≤ 3 ∧ grid loaded = []
  ∧ ∃ w, createFrom 3 tileFrames loaded = (Normal tt, w)
         ∧ cellAt w 0 (3 - 1) = Null
         ∧ (∀ i j, i < 3 → j < 3 → (0 < i ∨ j < 3 - 1) →
              ∃ t o, cellAt w i j = Ref t ∧ tiles w !! t = Some o
                     ∧ row o = i ∧ col o = j)
         ∧ placedInSequenceOrder 3 (reverse tileFrames) w.
Proof.
  intros tileFrames. split; [lia|]. split; [reflexivity|].
  apply (create_places_frames_from_the_end 3 tileFrames loaded);
    [lia|reflexivity].
Defined.

(** C2, as stated, fails: from the sequence [0; 1; 3; ...; 8] the first
    cell gets frame 8, the last entry, not entry 0. *)
Lemma create_is_not_in_sequence_order :
  let tileFrames := [0; 1; 3; 4; 5; 6; 7; 8] in
  let w := (createFrom 3 tileFrames loaded).2 in
  frameAt w 0 0 = Some 8
  ∧ tileFrames !! nonblankIndex 3 0 0 = Some 0
  ∧ ¬ placedInSequenceOrder 3 tileFrames w.
Proof.
  intros tileFrames w. split; [reflexivity|]. split; [reflexivity|].
  intros H. specialize (H 0 0). vm_compute in H.
  assert (Some 8 = Some 0) as [=] by (apply H; lia).
Qed.

(** ** The size guard *)

Lemma gridSizeGuard_ge_3 (g : global) (n : Z) :
  gridSizeGuard g = Normal n → (3 ≤ n)%Z.
Proof.
  unfold gridSizeGuard, falsy. destruct g as [|[z|]]; [done| |].
  - destruct (Z.eqb_spec z 0), (Z.ltb_spec z 3); simpl;
      intros [= <-]; lia.
  - intros [= <-]. lia.
Qed.

Lemma gridSizeGuard_integer (z : Z) :
  gridSizeGuard (Declared (Some z))
  = Normal (if (z <? 3)%Z then 4%Z else z).
Proof.
  unfold gridSizeGuard, falsy.
  by destruct (Z.eqb_spec z 0), (Z.ltb_spec z 3); simpl; try lia.
Qed.

Lemma create_starts (N : nat) (rnd : nat → nat) (w0 : World) :
  3 ≤ N → inRange rnd → grid w0 = [] →
  ∃ w, create N rnd w0 = (Normal tt, w) ∧ length (grid w) = N.
Proof.
  intros HN Hrnd Hempty. unfold create.
  destruct (shuffleGrid_Permutation N rnd HN) as (t & -> & _).
  destruct (createFrom_cells N t w0) as (w & Hrun & Hlen & _);
    [lia|done|eauto].
Qed.

(** C6 (amended).  With the page's [gridSize] an integer: every size
    >= 3 is accepted as the grid dimension; a size below 3 (2 included) is
    silently replaced by 4, and the session starts all the same, with a
    grid of the size the guard left: no error reaches the caller. *)
Theorem gridSize_below_3_is_replaced (z : Z) (rnd : nat → nat) :
  inRange rnd →
  ((3 ≤ z)%Z → gridSizeGuard (Declared (Some z)) = Normal z)
  ∧ ((z < 3)%Z → gridSizeGuard (Declared (Some z)) = Normal 4%Z)
  ∧ ∃ n w, gridSizeGuard (Declared (Some z)) = Normal n
           ∧ boot (Declared (Some z)) rnd = (Normal tt, w)
           ∧ Z.of_nat (length (grid w)) = n.
Proof.
  intros Hrnd. pose proof (gridSizeGuard_integer z) as Hg.
  split; [|split].
  - intros Hz. rewrite Hg. by destruct (Z.ltb_spec z 3); [lia|].
  - intros Hz. rewrite Hg. by destruct (Z.ltb_spec z 3); [|lia].
  - pose proof (gridSizeGuard_ge_3 _ _ Hg) as Hge.
    unfold boot. rewrite Hg.
    destruct (create_starts (Z.to_nat (if (z <? 3)%Z then 4%Z else z))
                rnd loaded) as (w & Hrun & Hlen); [lia|done|done|].
    exists (if (z <? 3)%Z then 4%Z else z), w.
    split; [done|]. split; [done|]. lia.
Qed.

Lemma gridSize_below_3_is_replaced_witness :
  inRange (λ i, i)
  ∧ gridSizeGuard (Declared (Some 5%Z)) = Normal 5%Z
  ∧ gridSizeGuard (Declared (Some 2%Z)) = Normal 4%Z
  ∧ ∃ n w, gridSizeGuard (Declared (Some 2%Z)) = Normal n
           ∧ boot (Declared (Some 2%Z)) (λ i, i) = (Normal tt, w)
           ∧ Z.of_nat (length (grid w)) = n.
Proof.
  assert (Hrnd : inRange (λ i, i)) by (intros i; lia).
  destruct (gridSize_below_3_is_replaced 5%Z (λ i, i) Hrnd)
    as (Hkeep & _).
  destruct (gridSize_below_3_is_replaced 2%Z (λ i, i) Hrnd)
    as (_ & Hreplace & Hboot).
  split; [done|]. split; [|split].
  - apply Hkeep. lia.
  - apply Hreplace. lia.
  - exact Hboot.
Defined.

(** C6, as stated, fails: size 2 is not accepted but replaced by 4, and
    the invalid size 1 starts a 4-by-4 game instead of failing. *)
Lemma size_2_is_replaced_and_size_1_starts :
  gridSizeGuard (Declared (Some 2%Z)) ≠ Normal 2%Z
  ∧ ∃ w, boot (Declared (Some 1%Z)) (λ i, i) = (Normal tt, w)
         ∧ length (grid w) = 4.
Proof.
  split; [vm_compute; discriminate|].
  eexists. split; [vm_compute; reflexivity|reflexivity].
Qed.

(** ** Reading and writing grid cells *)

Lemma cellOf_defined (g : list (list cell)) (N i j : nat) :
  length g = N → (∀ k cells, g !! k = Some cells → length cells = N) →
  cellOf g i j ≠ Undefined → i < N ∧ j < N.
Proof.
  intros Hrows Hcols. unfold cellOf, js_get.
  destruct (g !! i) as [cells|] eqn:Hi; [|done].
  destruct (cells !! j) as [c|] eqn:Hj; [|done].
  intros _. apply lookup_lt_Some in Hj.
  rewrite (Hcols i cells Hi) in Hj. apply lookup_lt_Some in Hi. lia.
Qed.

Lemma cellOf_write (g : list (list cell)) (r c : nat) (cells : list cell)
  (v : cell) (i j : nat) :
  g !! r = Some cells → c < length cells →
  cellOf (<[r := js_set cells c v]> g) i j
  = if decide (i = r ∧ j = c) then v else cellOf g i j.
Proof.
  intros Hr Hc. unfold cellOf.
  assert (r < length g) by (by eapply lookup_lt_Some).
  destruct (decide (i = r)) as [->|Hi].
  - rewrite list_lookup_insert_eq by done. rewrite Hr.
    unfold js_set, js_get. rewrite decide_True by done.
    destruct (decide (j = c)) as [->|Hj].
    + rewrite list_lookup_insert_eq by done.
      by rewrite decide_True.
    + rewrite list_lookup_insert_ne by done.
      by rewrite decide_False by tauto.
  - rewrite list_lookup_insert_ne by done.
    by rewrite decide_False by tauto.
Qed.

Lemma write_rows (g : list (list cell)) (N r c : nat) (cells : list cell)
  (v : cell) :
  g !! r = Some cells → c < length cells →
  (∀ k cs, g !! k = Some cs → length cs = N) →
  ∀ k cs, <[r := js_set cells c v]> g !! k = Some cs → length cs = N.
Proof.
  intros Hr Hc Hcols k cs Hk.
  assert (r < length g) by (by eapply lookup_lt_Some).
  destruct (decide (k = r)) as [->|Hne].
  - rewrite list_lookup_insert_eq in Hk by done.
    injection Hk as <-. unfold js_set. rewrite decide_True by done.
    rewrite length_insert. by apply (Hcols r).
  - rewrite list_lookup_insert_ne in Hk by done. by apply (Hcols k).
Qed.

(** ** [slideTile], step by step *)

Lemma slideTile_run (t : tid) (r c : nat) (w : World) (o : Tile)
  (cellsNew cellsOld : list cell) :
  tiles w !! t = Some o →
  grid w !! r = Some cellsNew →
  <[r := js_set cellsNew c (Ref t)]> (grid w) !! row o = Some cellsOld →
  slideTile t r c w
  = (Normal tt,
     mkWorld (<[row o := js_set cellsOld (col o) Null]>
                (<[r := js_set cellsNew c (Ref t)]> (grid w)))
             (<[t := mkTile (frame o) r c]> (tiles w))
             (listening w) (bgmPlaying w) (nootIsPlaying w) (nootPlays w)
             (S (slidePlays w)) (tweens w ++ [mkTween t r c])).
Proof.
  intros Ht Hr Ho.
  assert (Hlt : t < length (tiles w)) by (by eapply lookup_lt_Some).
  unfold slideTile, bind, getTile, setTile, writeCell, modify, bind,
    getTile, set_grid, set_tiles.
  cbn [grid tiles listening bgmPlaying nootIsPlaying nootPlays slidePlays
       tweens].
  repeat first
    [ rewrite Ht | rewrite Hr | rewrite Ho
    | rewrite list_lookup_insert_eq by done
    | progress cbn [frame row col grid tiles listening bgmPlaying
                    nootIsPlaying nootPlays slidePlays tweens] ].
  by rewrite list_insert_insert_eq.
Qed.

Lemma grid_inv_in_range (N : nat) (w : World) (t : tid) (o : Tile) :
  grid_inv N w → tiles w !! t = Some o → row o < N ∧ col o < N.
Proof.
  intros Hinv Ht.
  apply (cellOf_defined (grid w) N).
  - by apply inv_rows.
  - by apply inv_cols.
  - fold (cellAt w (row o) (col o)).
    by rewrite (inv_tile_placed N w Hinv t o Ht).
Qed.

Lemma slideTile_slid (N : nat) (t : tid) (r c : nat) (w : World) (o : Tile) :
  grid_inv N w → tiles w !! t = Some o → r < N → c < N →
  ∃ w', slideTile t r c w = (Normal tt, w')
        ∧ slid w t o r c w'
        ∧ ∀ k cs, grid w' !! k = Some cs → length cs = N.
Proof.
  intros Hinv Ht Hr Hc.
  destruct (grid_inv_in_range N w t o Hinv Ht) as [Hro Hco].
  pose proof (inv_rows N w Hinv) as Hrows.
  pose proof (inv_cols N w Hinv) as Hcols.
  destruct (lookup_lt_is_Some_2 (grid w) r) as [cellsNew HcN]; [lia|].
  pose proof (Hcols r cellsNew HcN) as HlN.
  destruct (lookup_lt_is_Some_2
              (<[r := js_set cellsNew c (Ref t)]> (grid w)) (row o))
    as [cellsOld HcO]; [rewrite length_insert; lia|].
  pose proof (write_rows (grid w) N r c cellsNew (Ref t) HcN
                ltac:(lia) Hcols) as Hcols1.
  pose proof (Hcols1 (row o) cellsOld HcO) as HlO.
  eexists. split; [by apply (slideTile_run t r c w o cellsNew cellsOld)|].
  split; [|by apply (write_rows _ N (row o) (col o) cellsOld Null HcO);
            [lia|]].
  unfold slid, cellAt.
  cbn [grid tiles listening bgmPlaying nootIsPlaying nootPlays slidePlays
       tweens].
  split; [|by rewrite !length_insert].
  intros i j. rewrite (cellOf_write _ (row o) (col o) cellsOld) by (done || lia).
  case_decide; [done|].
  by rewrite (cellOf_write _ r c cellsNew) by (done || lia).
Qed.

(** Sliding a tile into the blank cell keeps the invariant. *)
Lemma slid_grid_inv (N : nat) (w w' : World) (t : tid) (o : Tile)
  (r c : nat) :
  grid_inv N w → tiles w !! t = Some o → r < N → c < N →
  cellAt w r c = Null →
  slid w t o r c w' →
  (∀ k cs, grid w' !! k = Some cs → length cs = N) →
  grid_inv N w'.
Proof.
  intros Hinv Ht Hr Hc Hnull (Hcell & Htiles & Hlen & _) Hcols'.
  destruct (grid_inv_in_range N w t o Hinv Ht) as [Hro Hco].
  pose proof (inv_tile_placed N w Hinv t o Ht) as Hhere.
  assert (Hlt : t < length (tiles w)) by (by eapply lookup_lt_Some).
  assert (Hne : ¬ (r = row o ∧ c = col o)).
  { intros [-> ->]. congruence. }
  destruct (inv_one_null N w Hinv) as (bi & bj & Hb & Hbu).
  destruct (Hbu r c Hnull) as [<- <-].
  split.
  - rewrite Hlen. by apply inv_rows.
  - done.
  - intros i j Hi Hj. rewrite Hcell.
    repeat case_decide; try done. by apply (inv_filled N w Hinv).
  - exists (row o), (col o). split.
    + rewrite Hcell. by rewrite decide_True.
    + intros i j. rewrite Hcell. repeat case_decide; try done.
      intros Hn. destruct (Hbu i j Hn). tauto.
  - intros t' o'. rewrite Htiles, Hcell.
    destruct (decide (t' = t)) as [->|Htt].
    + rewrite list_lookup_insert_eq by done. intros [= <-]. cbn [row col].
      rewrite decide_False by done. by rewrite decide_True.
    + rewrite list_lookup_insert_ne by done. intros Ht'.
      pose proof (inv_tile_placed N w Hinv t' o' Ht') as Hthere.
      repeat case_decide; try done.
      * destruct H as [E1 E2]. rewrite E1, E2 in Hthere. congruence.
      * destruct H0 as [E1 E2]. rewrite E1, E2 in Hthere. congruence.
  - intros i j t'. rewrite Hcell, Htiles. repeat case_decide; try done.
    + destruct H0 as [-> ->]. intros [= <-].
      exists (mkTile (frame o) r c).
      by rewrite list_lookup_insert_eq.
    + intros Hc'.
      destruct (inv_tile_once N w Hinv i j t' Hc') as (o' & Ho' & <- & <-).
      exists o'. split; [|done].
      rewrite list_lookup_insert_ne; [done|].
      intros <-. apply H. split; congruence.
Qed.

(** ** [tileClicked]: which way the tile goes *)

Lemma and_then_isFree (b : bool) (i j : nat) (w : World) :
  (b = true → i < length (grid w)) →
  and_then b (isFree i j) w = (Normal (b && not_ (cellAt w i j)), w).
Proof.
  intros Hb. destruct b; [|done]. cbn [and_then andb].
  unfold isFree, bind, readCell, cellAt, cellOf.
  destruct (lookup_lt_is_Some_2 (grid w) i) as [cells ->]; [by apply Hb|].
  done.
Qed.

Lemma head_free (w : World) (b : bool) (p : nat * nat)
  (l : list (nat * nat)) :
  head (filter (λ p, not_ (cellAt w p.1 p.2) = true)
               ((if b then [p] else []) ++ l))
  = if b && not_ (cellAt w p.1 p.2) then Some p
    else head (filter (λ p, not_ (cellAt w p.1 p.2) = true) l).
Proof.
  destruct b; cbn [andb app]; [|done].
  rewrite filter_cons.
  destruct (not_ (cellAt w p.1 p.2)) eqn:E.
  - by rewrite decide_True.
  - by rewrite decide_False.
Qed.

Lemma tileClicked_eq (N : nat) (t : tid) (w : World) (o : Tile) :
  grid_inv N w → tiles w !! t = Some o →
  tileClicked N t w
  = match freeNeighbour N w o with
    | Some p => slideTile t p.1 p.2 w
    | None => (Normal tt, w)
    end.
Proof.
  intros Hinv Ht.
  destruct (grid_inv_in_range N w t o Hinv Ht) as [Hro Hco].
  pose proof (inv_rows N w Hinv) as Hrows.
  unfold freeNeighbour, neighbours.
  rewrite <- (app_nil_r (if col o <? N - 1 then _ else _)).
  rewrite !head_free. cbn [fst snd filter head list_filter].
  unfold tileClicked, bind, getTile. rewrite Ht.
  rewrite and_then_isFree by (intros ?%Nat.ltb_lt; lia).
  destruct ((0 <? row o) && not_ (cellAt w (row o - 1) (col o))); [done|].
  rewrite and_then_isFree by (intros ?%Nat.ltb_lt; lia).
  destruct ((row o <? N - 1) && not_ (cellAt w (row o + 1) (col o)));
    [done|].
  rewrite and_then_isFree by (intros _; lia).
  destruct ((0 <? col o) && not_ (cellAt w (row o) (col o - 1))); [done|].
  rewrite and_then_isFree by (intros _; lia).
  by destruct ((col o <? N - 1) && not_ (cellAt w (row o) (col o + 1))).
Qed.

Lemma neighbours_in_range (N r c : nat) (p : nat * nat) :
  r < N → c < N → p ∈ neighbours N r c → p.1 < N ∧ p.2 < N.
Proof.
  intros Hr Hc. unfold neighbours.
  rewrite !elem_of_app.
  destruct (Nat.ltb_spec 0 r), (Nat.ltb_spec r (N - 1)),
    (Nat.ltb_spec 0 c), (Nat.ltb_spec c (N - 1));
    rewrite ?list_elem_of_singleton, ?elem_of_nil;
    intros [?|[?|[?|?]]]; subst; simpl; try done; lia.
Qed.

Lemma freeNeighbour_Some (N : nat) (w : World) (t : tid) (o : Tile)
  (p : nat * nat) :
  grid_inv N w → tiles w !! t = Some o →
  freeNeighbour N w o = Some p →
  p ∈ neighbours N (row o) (col o)
  ∧ p.1 < N ∧ p.2 < N ∧ cellAt w p.1 p.2 = Null.
Proof.
  intros Hinv Ht Hp. unfold freeNeighbour in Hp.
  destruct (grid_inv_in_range N w t o Hinv Ht) as [Hro Hco].
  apply head_Some_elem_of, list_elem_of_filter in Hp as [Hfree Hin].
  destruct (neighbours_in_range N _ _ p Hro Hco Hin) as [H1 H2].
  split; [done|]. split; [done|]. split; [done|].
  pose proof (inv_filled N w Hinv p.1 p.2 H1 H2).
  by destruct (cellAt w p.1 p.2).
Qed.

Lemma freeNeighbour_None (N : nat) (w : World) (o : Tile) :
  (∀ p, p ∈ neighbours N (row o) (col o) → cellAt w p.1 p.2 ≠ Null) →
  (∀ p, p ∈ neighbours N (row o) (col o) → cellAt w p.1 p.2 ≠ Undefined) →
  freeNeighbour N w o = None.
Proof.
  intros Hnn Hdef. unfold freeNeighbour.
  destruct (filter _ _) as [|p l] eqn:E; [done|].
  assert (p ∈ filter (λ p, not_ (cellAt w p.1 p.2) = true)
                     (neighbours N (row o) (col o))) as Hp
    by (rewrite E; apply list_elem_of_here).
  apply list_elem_of_filter in Hp as [Hfree Hin].
  specialize (Hnn p Hin). specialize (Hdef p Hin).
  by destruct (cellAt w p.1 p.2).
Qed.

(** ** The example state *)

Lemma exampleWorld_created :
  shuffleGrid 3 (λ i, nth i [0; 1; 2; 2; 4; 3; 1; 0] 0)
  = Normal [8; 7; 6; 3; 5; 4; 1; 0]
  ∧ create 3 (λ i, nth i [0; 1; 2; 2; 4; 3; 1; 0] 0) loaded
    = (Normal tt, exampleWorld).
Proof. split; reflexivity. Qed.

Lemma exampleWorld_inv : grid_inv 3 exampleWorld.
Proof.
  split.
  - reflexivity.
  - intros [|[|[|i]]] cells; simpl; intros [= <-]; reflexivity.
  - intros [|[|[|i]]] [|[|[|j]]]; intros; try lia; vm_compute; done.
  - exists 0, 2. split; [reflexivity|].
    intros [|[|[|i]]] [|[|[|j]]]; vm_compute; done.
  - intros [|[|[|[|[|[|[|[|t]]]]]]]] o; simpl; intros [= <-]; reflexivity.
  - intros [|[|[|i]]] [|[|[|j]]] t; vm_compute; intros [= <-]; eauto.
Qed.

(** ** Clicks *)

(** C7.  A click on a tile none of whose orthogonal neighbours is the
    blank cell changes nothing, neither a grid cell nor a tile's row and
    column (nor anything else in the scene), and raises no error. *)
Theorem tileClicked_without_blank_neighbour (N : nat) (w : World) (t : tid)
  (o : Tile) :
  grid_inv N w → tiles w !! t = Some o →
  (∀ p, p ∈ neighbours N (row o) (col o) → cellAt w p.1 p.2 ≠ Null) →
  tileClicked N t w = (Normal tt, w)
  ∧ handle N (GameObjectDown t) w = (Normal tt, w).
Proof.
  intros Hinv Ht Hnn.
  destruct (grid_inv_in_range N w t o Hinv Ht) as [Hro Hco].
  assert (E : tileClicked N t w = (Normal tt, w)).
  { rewrite (tileClicked_eq N t w o Hinv Ht).
    rewrite freeNeighbour_None; [done|done|].
    intros p Hp.
    destruct (neighbours_in_range N _ _ p Hro Hco Hp).
    by apply (inv_filled N w Hinv). }
  split; [done|]. cbn [handle]. by destruct (listening w).
Qed.

Lemma tileClicked_without_blank_neighbour_witness :
  grid_inv 3 exampleWorld
  ∧ tiles exampleWorld !! 5 = Some (mkTile (Some 6) 2 0)
  ∧ (∀ p, p ∈ neighbours 3 2 0 → cellAt exampleWorld p.1 p.2 ≠ Null)
  ∧ tileClicked 3 5 exampleWorld = (Normal tt, exampleWorld)
  ∧ handle 3 (GameObjectDown 5) exampleWorld = (Normal tt, exampleWorld).
Proof.
  assert (Hnn : ∀ p, p ∈ neighbours 3 2 0 → cellAt exampleWorld p.1 p.2 ≠ Null).
  { intros p Hp. vm_compute in Hp.
    apply elem_of_cons in Hp as [->|Hp]; [done|].
    apply list_elem_of_singleton in Hp as ->. done. }
  split; [exact exampleWorld_inv|]. split; [reflexivity|].
  split; [exact Hnn|].
  exact (tileClicked_without_blank_neighbour 3 exampleWorld 5
           (mkTile (Some 6) 2 0) exampleWorld_inv eq_refl Hnn).
Defined.

(** C10.  Every click on a tile keeps the grid invariant: no exception,
    and the grid still has exactly one null cell, every tile object in
    exactly one cell, and row and col fields that name that cell. *)
Theorem tileClicked_preserves_grid_inv (N : nat) (w : World) (t : tid)
  (o : Tile) :
  grid_inv N w → tiles w !! t = Some o →
  ∃ w', tileClicked N t w = (Normal tt, w') ∧ grid_inv N w'.
Proof.
  intros Hinv Ht. rewrite (tileClicked_eq N t w o Hinv Ht).
  destruct (freeNeighbour N w o) as [[r c]|] eqn:Hfree; [|eauto].
  destruct (freeNeighbour_Some N w t o (r, c) Hinv Ht Hfree)
    as (_ & Hr & Hc & Hnull). cbn [fst snd] in *.
  destruct (slideTile_slid N t r c w o Hinv Ht Hr Hc)
    as (w' & Hrun & Hslid & Hcols).
  exists w'. split; [done|].
  by apply (slid_grid_inv N w w' t o r c).
Qed.

Lemma tileClicked_preserves_grid_inv_witness :
  grid_inv 3 exampleWorld
  ∧ tiles exampleWorld !! 4 = Some (mkTile (Some 3) 1 2)
  ∧ ∃ w', tileClicked 3 4 exampleWorld = (Normal tt, w') ∧ grid_inv 3 w'.
Proof.
  split; [exact exampleWorld_inv|]. split; [reflexivity|].
  exact (tileClicked_preserves_grid_inv 3 exampleWorld 4
           (mkTile (Some 3) 1 2) exampleWorld_inv eq_refl).
Defined.

(** ** Sliding back *)

Lemma grid_ext (N : nat) (g g' : list (list cell)) :
  length g = N → length g' = N →
  (∀ k cs, g !! k = Some cs → length cs = N) →
  (∀ k cs, g' !! k = Some cs → length cs = N) →
  (∀ i j, cellOf g i j = cellOf g' i j) →
  g = g'.
Proof.
  intros Hl Hl' Hc Hc' Hcells.
  apply (list_eq_same_length g g' N); [done|done|].
  intros i cs cs' Hi Hcs Hcs'.
  apply (list_eq_same_length cs cs' N);
    [by apply (Hc' i)|by apply (Hc i)|].
  intros j x y Hj Hx Hy.
  specialize (Hcells i j). unfold cellOf, js_get in Hcells.
  by rewrite Hcs, Hcs', Hx, Hy in Hcells.
Qed.

Lemma slideTile_round_trip (N : nat) (w : World) (t : tid) (o : Tile)
  (r c : nat) :
  grid_inv N w → tiles w !! t = Some o →
  (r, c) ∈ neighbours N (row o) (col o) → cellAt w r c = Null →
  ∃ w1 w2,
    slideTile t r c w = (Normal tt, w1)
    ∧ slideTile t (row o) (col o) w1 = (Normal tt, w2)
    ∧ grid w2 = grid w
    ∧ tiles w2 = tiles w.
Proof.
  intros Hinv Ht Hadj Hnull.
  destruct (grid_inv_in_range N w t o Hinv Ht) as [Hro Hco].
  destruct (neighbours_in_range N _ _ (r, c) Hro Hco Hadj) as [Hr Hc].
  cbn [fst snd] in *.
  assert (Hlt : t < length (tiles w)) by (by eapply lookup_lt_Some).
  pose proof (inv_tile_placed N w Hinv t o Ht) as Hhere.
  destruct (slideTile_slid N t r c w o Hinv Ht Hr Hc)
    as (w1 & Hrun1 & Hslid1 & Hcols1).
  pose proof (slid_grid_inv N w w1 t o r c Hinv Ht Hr Hc Hnull Hslid1 Hcols1)
    as Hinv1.
  destruct Hslid1 as (Hcell1 & Htiles1 & Hlen1 & _).
  assert (Ht1 : tiles w1 !! t = Some (mkTile (frame o) r c))
    by (rewrite Htiles1; by apply list_lookup_insert_eq).
  destruct (slideTile_slid N t (row o) (col o) w1 _ Hinv1 Ht1 Hro Hco)
    as (w2 & Hrun2 & (Hcell2 & Htiles2 & Hlen2 & _) & Hcols2).
  cbn [frame row col] in *.
  exists w1, w2. split; [done|]. split; [done|]. split.
  - apply (grid_ext N).
    + rewrite Hlen2, Hlen1. by apply inv_rows.
    + by apply inv_rows.
    + done.
    + by apply inv_cols.
    + intros i j. fold (cellAt w2 i j) (cellAt w i j).
      rewrite Hcell2, Hcell1.
      repeat case_decide; try done.
      * destruct H as [-> ->]. done.
      * destruct H0 as [-> ->]. done.
  - rewrite Htiles2, Htiles1. rewrite list_insert_insert_eq.
    apply list_insert_id. by destruct o.
Qed.

(** ** When the win check runs *)

Lemma freeNeighbour_blank (N : nat) (w : World) (t : tid) (o : Tile)
  (r c : nat) :
  grid_inv N w → tiles w !! t = Some o →
  (r, c) ∈ neighbours N (row o) (col o) → cellAt w r c = Null →
  freeNeighbour N w o = Some (r, c).
Proof.
  intros Hinv Ht Hadj Hnull.
  destruct (freeNeighbour N w o) as [p|] eqn:Hfree.
  - destruct (freeNeighbour_Some N w t o p Hinv Ht Hfree)
      as (_ & _ & _ & Hp).
    destruct (inv_one_null N w Hinv) as (bi & bj & _ & Hbu).
    destruct (Hbu r c Hnull) as [-> ->].
    destruct (Hbu p.1 p.2 Hp) as [E1 E2].
    destruct p as [p1 p2]. cbn [fst snd] in *. by subst.
  - exfalso. unfold freeNeighbour in Hfree.
    apply head_None in Hfree.
    assert ((r, c) ∈ filter (λ p, not_ (cellAt w p.1 p.2) = true)
                            (neighbours N (row o) (col o))) as Hin.
    { apply list_elem_of_filter. split; [|done]. cbn [fst snd].
      by rewrite Hnull. }
    rewrite Hfree in Hin. by apply elem_of_nil in Hin.
Qed.

(** C9 (amended).  A legal move swaps the grid cells at once, inside the
    click handler, but the handler does not check for a win: it leaves
    the listener, the music and the victory sound as they were and only
    adds the slide tween, whose completion is what runs [checkWin], on
    the grid as it is by then. *)
Theorem win_check_waits_for_the_tween (N : nat) (w : World) (t : tid)
  (o : Tile) (r c : nat) :
  grid_inv N w → tiles w !! t = Some o →
  (r, c) ∈ neighbours N (row o) (col o) → cellAt w r c = Null →
  ∃ w', tileClicked N t w = (Normal tt, w')
        ∧ cellAt w' r c = Ref t
        ∧ cellAt w' (row o) (col o) = Null
        ∧ listening w' = listening w
        ∧ bgmPlaying w' = bgmPlaying w
        ∧ nootIsPlaying w' = nootIsPlaying w
        ∧ nootPlays w' = nootPlays w
        ∧ tweens w' = tweens w ++ [mkTween t r c]
        ∧ ∀ w'' tw rest,
            tweens w'' = tw :: rest →
            handle N TweenComplete w'' = checkWin N (set_tweens rest w'').
Proof.
  intros Hinv Ht Hadj Hnull.
  destruct (grid_inv_in_range N w t o Hinv Ht) as [Hro Hco].
  destruct (neighbours_in_range N _ _ (r, c) Hro Hco Hadj) as [Hr Hc].
  cbn [fst snd] in *.
  rewrite (tileClicked_eq N t w o Hinv Ht).
  rewrite (freeNeighbour_blank N w t o r c Hinv Ht Hadj Hnull).
  cbn [fst snd].
  destruct (slideTile_slid N t r c w o Hinv Ht Hr Hc)
    as (w' & Hrun & (Hcell & _ & _ & Hl & Hb & Hn & Hp & _ & Htw) & _).
  assert (Hne : ¬ (r = row o ∧ c = col o)).
  { intros [-> ->].
    rewrite (inv_tile_placed N w Hinv t o Ht) in Hnull. done. }
  exists w'. split; [done|].
  split; [rewrite Hcell, decide_False by done; by rewrite decide_True|].
  split; [rewrite Hcell; by rewrite decide_True|].
  repeat (split; [done|]).
  intros w'' tw rest Hw''. cbn [handle]. by rewrite Hw''.
Qed.

Lemma win_check_waits_for_the_tween_witness :
  grid_inv 3 exampleWorld
  ∧ tiles exampleWorld !! 4 = Some (mkTile (Some 3) 1 2)
  ∧ (0, 2) ∈ neighbours 3 1 2
  ∧ cellAt exampleWorld 0 2 = Null
  ∧ ∃ w', tileClicked 3 4 exampleWorld = (Normal tt, w')
          ∧ cellAt w' 0 2 = Ref 4
          ∧ cellAt w' 1 2 = Null
          ∧ listening w' = listening exampleWorld
          ∧ bgmPlaying w' = bgmPlaying exampleWorld
          ∧ nootIsPlaying w' = nootIsPlaying exampleWorld
          ∧ nootPlays w' = nootPlays exampleWorld
          ∧ tweens w' = tweens exampleWorld ++ [mkTween 4 0 2]
          ∧ ∀ w'' tw rest,
              tweens w'' = tw :: rest →
              handle 3 TweenComplete w''
              = checkWin 3 (set_tweens rest w'').
Proof.
  assert (Hadj : (0, 2) ∈ neighbours 3 1 2)
    by (vm_compute; apply list_elem_of_here).
  split; [exact exampleWorld_inv|]. split; [reflexivity|].
  split; [exact Hadj|]. split; [reflexivity|].
  exact (win_check_waits_for_the_tween 3 exampleWorld 4
           (mkTile (Some 3) 1 2) 0 2 exampleWorld_inv eq_refl Hadj eq_refl).
Defined.

Lemma solved_3 (w : World) :
  (∀ i j, i < 3 → j < 3 →
          bool_decide (cellAt w i j = Null)
          || bool_decide (frameAt w i j = Some (3 * i + j)) = true) →
  solved 3 w.
Proof.
  intros H i j Hi Hj. specialize (H i j Hi Hj). unfold atHome.
  apply orb_true_iff in H as [H|H]; apply bool_decide_eq_true in H; tauto.
Qed.

(** C9, as stated, fails.  One move away from the finished picture, the
    click that finishes it leaves the game unsignalled: the listener is
    still installed and a tween is pending.  A second click is handled
    before the check and moves the tile away again; the checks that run
    afterwards find the picture unfinished, so the win is never
    signalled, whereas a tween completing before the second click would
    have signalled it. *)
Lemma win_check_is_not_synchronous :
  let w1 := (run 3 [GameObjectDown 1; TweenComplete] solvedWorld).2 in
  let w2 := (handle 3 (GameObjectDown 1) w1).2 in
  let w3 := (handle 3 (GameObjectDown 1) w2).2 in
  solved 3 w2
  ∧ listening w2 = true ∧ bgmPlaying w2 = true ∧ nootPlays w2 = 0
  ∧ tweens w2 = [mkTween 1 0 1]
  ∧ grid w3 ≠ grid w2
  ∧ ¬ winSignalled (run 3 [TweenComplete; TweenComplete] w3).2
  ∧ winSignalled (handle 3 TweenComplete w2).2.
Proof.
  intros w1 w2 w3.
  split.
  { apply solved_3. intros [|[|[|i]]] [|[|[|j]]] Hi Hj; try lia; reflexivity. }
  repeat (split; [reflexivity|]).
  split; [vm_compute; discriminate|].
  split; [|vm_compute; done].
  vm_compute. intros (H & _). discriminate.
Qed.

(** ** [checkWin] *)

Lemma mismatch_run (N : nat) (w : World) (i j : nat) :
  grid_inv N w → i < N → j < N →
  ∃ b, mismatch N i j w = (Normal b, w) ∧ (b = false ↔ atHome N w i j).
Proof.
  intros Hinv Hi Hj.
  pose proof (inv_filled N w Hinv i j Hi Hj) as Hdef.
  pose proof (inv_tile_once N w Hinv i j) as Honce.
  unfold mismatch, bind, readCell, atHome, frameAt.
  unfold cellAt, cellOf in *.
  destruct (lookup_lt_is_Some_2 (grid w) i) as [cells Hcells];
    [by rewrite (inv_rows N w Hinv)|].
  rewrite Hcells in *.
  destruct (js_get cells j) as [| |t]; [done| |].
  - exists false. split; [done|]. tauto.
  - destruct (Honce t eq_refl) as (o & Ho & _).
    unfold getTile. rewrite Ho. cbn [mbind option_bind].
    eexists. split; [done|].
    rewrite bool_decide_eq_false. split.
    + intros H. right. by apply dec_stable.
    + intros [?|H]; [done|]. by intros ?.
Qed.

Lemma checkWin_cols_run (N : nat) (w : World) (i : nat) (cols : list nat) :
  grid_inv N w → i < N → (∀ j, j ∈ cols → j < N) →
  ∃ b, checkWin_cols N i cols w = (Normal b, w)
       ∧ (b = false ↔ ∀ j, j ∈ cols → atHome N w i j).
Proof.
  intros Hinv Hi. induction cols as [|j cols IH]; intros Hcols.
  - exists false. split; [done|]. split; [|done].
    intros _ j Hj. by apply elem_of_nil in Hj.
  - destruct (mismatch_run N w i j Hinv Hi) as (b & Hb & Hhome).
    { apply Hcols, list_elem_of_here. }
    destruct IH as (b' & Hb' & Hrest).
    { intros k Hk. by apply Hcols, list_elem_of_further. }
    cbn [checkWin_cols]. unfold bind. rewrite Hb.
    destruct b.
    + exists true. split; [done|]. split; [done|].
      intros H. apply Hhome, H, list_elem_of_here.
    + exists b'. split; [done|]. rewrite Hrest. split.
      * intros H k [->|Hk]%elem_of_cons; [by apply Hhome|by apply H].
      * intros H k Hk. by apply H, list_elem_of_further.
Qed.

Lemma grid_inv_signalWin (N : nat) (w : World) :
  grid_inv N w → grid_inv N (signalWin w).
Proof. intros [? ? ? ? ? ?]. by split. Qed.

Lemma winSignalled_signalWin (w : World) : winSignalled (signalWin w).
Proof. done. Qed.

Lemma checkWin_rows_run (N : nat) (rows : list nat) (w : World) :
  grid_inv N w → (∀ i, i ∈ rows → i < N) →
  ∃ w', checkWin_rows N rows w = (Normal tt, w')
        ∧ grid w' = grid w ∧ tiles w' = tiles w
        ∧ (winSignalled w → winSignalled w')
        ∧ match rows with
          | [] => w' = w
          | i :: _ =>
              (rowAtHome N w i → winSignalled w')
              ∧ (¬ rowAtHome N w i → w' = w)
          end.
Proof.
  revert w. induction rows as [|i rows IH]; intros w Hinv Hrows.
  - exists w. done.
  - assert (Hi : i < N) by apply Hrows, list_elem_of_here.
    destruct (checkWin_cols_run N w i (seq 0 N) Hinv Hi)
      as (b & Hb & Hhome).
    { intros j Hj%elem_of_seq. lia. }
    assert (Hrow : b = false ↔ rowAtHome N w i).
    { rewrite Hhome. unfold rowAtHome. split.
      - intros H j Hj. apply H, elem_of_seq. lia.
      - intros H j Hj%elem_of_seq. apply H. lia. }
    cbn [checkWin_rows]. unfold bind. rewrite Hb.
    destruct b.
    + exists w. split; [done|]. split; [done|]. split; [done|].
      split; [done|]. split; [|done].
      intros H. apply Hrow in H. done.
    + cbn [modify].
      destruct (IH (signalWin w)) as (w' & Hrun & Hg & Ht & Hs & _).
      { by apply grid_inv_signalWin. }
      { intros k Hk. by apply Hrows, list_elem_of_further. }
      exists w'. split; [done|]. split; [done|]. split; [done|].
      pose proof (Hs (winSignalled_signalWin w)) as Hw.
      split; [done|]. split; [done|].
      intros H. exfalso. apply H. by apply Hrow.
Qed.

(** What [checkWin] really tests: it ends the game as soon as the FIRST
    row is as in the finished picture, whatever the other rows hold, and
    does nothing otherwise. *)
Lemma checkWin_looks_at_row_0 (N : nat) (w : World) :
  1 ≤ N → grid_inv N w →
  ∃ w', checkWin N w = (Normal tt, w')
        ∧ (rowAtHome N w 0 → winSignalled w')
        ∧ (¬ rowAtHome N w 0 → w' = w).
Proof.
  intros HN Hinv. unfold checkWin.
  destruct (checkWin_rows_run N (seq 0 N) w Hinv)
    as (w' & Hrun & _ & _ & _ & Hhead).
  { intros i Hi%elem_of_seq. lia. }
  destruct N as [|N]; [lia|]. cbn [seq] in *.
  exists w'. done.
Qed.

(** C1, on the code.  In the state [[0, 1, _], [4, 5, 3], [6, 7, 8]] the
    first row is in place and the second is not; [checkWin] stops the
    input, stops the music and plays the victory sound all the same.  The
    player gets there from the freshly created puzzle by sliding tile 3
    up and back down. *)
Theorem checkWin_signals_win_on_unsolved_grid :
  ¬ solved 3 exampleWorld
  ∧ ¬ atHome 3 exampleWorld 1 0
  ∧ listening exampleWorld = true
  ∧ winSignalled (checkWin 3 exampleWorld).2
  ∧ let played :=
      (run 3 [GameObjectDown 4; TweenComplete;
              GameObjectDown 4; TweenComplete] exampleWorld).2 in
    grid played = grid exampleWorld
    ∧ tiles played = tiles exampleWorld
    ∧ winSignalled played.
Proof.
  assert (Hbad : ¬ atHome 3 exampleWorld 1 0).
  { intros [H|H]; vm_compute in H; discriminate. }
  split; [|split; [done|]].
  { intros H. apply Hbad, H; lia. }
  split; [reflexivity|].
  split; [vm_compute; done|].
  vm_compute. done.
Qed.

(** ** Clicking the same tile twice *)

Lemma neighbours_sym (N r c : nat) (p : nat * nat) :
  r < N → c < N → p ∈ neighbours N r c → (r, c) ∈ neighbours N p.1 p.2.
Proof.
  intros Hr Hc. unfold neighbours. rewrite !elem_of_app.
  destruct (Nat.ltb_spec 0 r), (Nat.ltb_spec r (N - 1)),
    (Nat.ltb_spec 0 c), (Nat.ltb_spec c (N - 1));
    rewrite ?list_elem_of_singleton, ?elem_of_nil;
    intros [?|[?|[?|?]]]; subst; cbn [fst snd]; try done.
  all: try (right; left;
            rewrite (proj2 (Nat.ltb_lt (r - 1) (N - 1))) by lia;
            apply list_elem_of_singleton; f_equal; lia).
  all: try (left;
            rewrite (proj2 (Nat.ltb_lt 0 (r + 1))) by lia;
            apply list_elem_of_singleton; f_equal; lia).
  all: try (right; right; right;
            rewrite (proj2 (Nat.ltb_lt (c - 1) (N - 1))) by lia;
            apply list_elem_of_singleton; f_equal; lia).
  all: try (right; right; left;
            rewrite (proj2 (Nat.ltb_lt 0 (c + 1))) by lia;
            apply list_elem_of_singleton; f_equal; lia).
Qed.

(** C8.  The slide is its own inverse: on a grid that satisfies the
    invariant, sliding a tile into the blank cell next to it and then
    sliding the same tile back to where it came from restores every cell
    and the row and col fields of every tile.  In the game these two
    slides are what two clicks on the tile do. *)
Theorem slideTile_there_and_back (N : nat) (w : World) (t : tid) (o : Tile)
  (r c : nat) :
  grid_inv N w → tiles w !! t = Some o →
  (r, c) ∈ neighbours N (row o) (col o) → cellAt w r c = Null →
  ∃ w1 w2,
    slideTile t r c w = (Normal tt, w1)
    ∧ slideTile t (row o) (col o) w1 = (Normal tt, w2)
    ∧ grid w1 ≠ grid w
    ∧ grid w2 = grid w
    ∧ tiles w2 = tiles w
    ∧ tileClicked N t w = (Normal tt, w1)
    ∧ tileClicked N t w1 = (Normal tt, w2).
Proof.
  intros Hinv Ht Hadj Hnull.
  destruct (grid_inv_in_range N w t o Hinv Ht) as [Hro Hco].
  destruct (neighbours_in_range N _ _ (r, c) Hro Hco Hadj) as [Hr Hc].
  cbn [fst snd] in *.
  destruct (slideTile_round_trip N w t o r c Hinv Ht Hadj Hnull)
    as (w1 & w2 & Hrun1 & Hrun2 & Hg & Hts).
  destruct (slideTile_slid N t r c w o Hinv Ht Hr Hc)
    as (w1' & Hrun1' & Hslid1 & Hcols1).
  assert (w1' = w1) as -> by congruence.
  pose proof (slid_grid_inv N w w1 t o r c Hinv Ht Hr Hc Hnull Hslid1 Hcols1)
    as Hinv1.
  destruct Hslid1 as (Hcell1 & Htiles1 & _).
  assert (Hlt : t < length (tiles w)) by (by eapply lookup_lt_Some).
  assert (Ht1 : tiles w1 !! t = Some (mkTile (frame o) r c))
    by (rewrite Htiles1; by apply list_lookup_insert_eq).
  exists w1, w2. split; [done|]. split; [done|].
  split; [|split; [done|split; [done|split]]]; last first.
  - rewrite (tileClicked_eq N t w1 _ Hinv1 Ht1).
    rewrite (freeNeighbour_blank N w1 t _ (row o) (col o) Hinv1 Ht1);
      [done| |].
    + by apply (neighbours_sym N (row o) (col o) (r, c)).
    + rewrite Hcell1. by rewrite decide_True.
  - rewrite (tileClicked_eq N t w o Hinv Ht).
    by rewrite (freeNeighbour_blank N w t o r c Hinv Ht Hadj Hnull).
  - intros E. specialize (Hcell1 (row o) (col o)).
    rewrite decide_True in Hcell1 by done.
    unfold cellAt in Hcell1. rewrite E in Hcell1.
    fold (cellAt w (row o) (col o)) in Hcell1.
    rewrite (inv_tile_placed N w Hinv t o Ht) in Hcell1. done.
Qed.

Lemma slideTile_there_and_back_witness :
  grid_inv 3 exampleWorld
  ∧ tiles exampleWorld !! 4 = Some (mkTile (Some 3) 1 2)
  ∧ (0, 2) ∈ neighbours 3 1 2
  ∧ cellAt exampleWorld 0 2 = Null
  ∧ ∃ w1 w2,
      slideTile 4 0 2 exampleWorld = (Normal tt, w1)
      ∧ slideTile 4 1 2 w1 = (Normal tt, w2)
      ∧ grid w1 ≠ grid exampleWorld
      ∧ grid w2 = grid exampleWorld
      ∧ tiles w2 = tiles exampleWorld
      ∧ tileClicked 3 4 exampleWorld = (Normal tt, w1)
      ∧ tileClicked 3 4 w1 = (Normal tt, w2).
Proof.
  assert (Hadj : (0, 2) ∈ neighbours 3 1 2)
    by (vm_compute; apply list_elem_of_here).
  split; [exact exampleWorld_inv|]. split; [reflexivity|].
  split; [exact Hadj|]. split; [reflexivity|].
  exact (slideTile_there_and_back 3 exampleWorld 4 (mkTile (Some 3) 1 2)
           0 2 exampleWorld_inv eq_refl Hadj eq_refl).
Defined.


(** ** Every state of the game satisfies the invariant *)

Lemma placedBefore_inverse (N t : nat) :
  1 ≤ N → t < N * N - 1 →
  ∃ i j, i < N ∧ j < N ∧ (0 < i ∨ j < N - 1) ∧ placedBefore N i j = t.
Proof.
  intros HN Ht. unfold placedBefore.
  destruct (decide (t < N - 1)) as [Hlt|Hge].
  - exists 0, t. repeat split; [lia|lia|lia|]. simpl. lia.
  - exists ((t + 1) / N), ((t + 1) mod N).
    pose proof (Nat.div_mod_eq (t + 1) N) as E.
    pose proof (Nat.mod_upper_bound (t + 1) N ltac:(lia)) as Hm.
    assert (1 ≤ (t + 1) / N) by (apply Nat.div_le_lower_bound; lia).
    assert ((t + 1) / N < N) by (apply Nat.Div0.div_lt_upper_bound; nia).
    split; [done|]. split; [done|]. split; [lia|].
    destruct (Nat.eqb_spec ((t + 1) / N) 0); lia.
Qed.

Lemma cellOK_true (N i j : nat) :
  (0 < i ∨ j < N - 1) → (0 <? i) || (j <? N - 1) = true.
Proof.
  destruct (Nat.ltb_spec 0 i), (Nat.ltb_spec j (N - 1)); simpl; lia.
Qed.

(** [create] establishes the invariant, whatever frames it is given. *)
Lemma createFrom_grid_inv (N : nat) (tileFrames : list nat) (w0 : World) :
  1 ≤ N → grid w0 = [] → tiles w0 = [] →
  ∃ w, createFrom N tileFrames w0 = (Normal tt, w) ∧ grid_inv N w.
Proof.
  intros HN Hempty Hnone.
  destruct (createFrom_cells N tileFrames w0 HN Hempty)
    as (w & Hrun & Hrows & Hts & Hcols & Hok).
  rewrite Hnone in Hts, Hok. cbn [length] in Hts, Hok.
  exists w. split; [done|].
  assert (Hcorner : cellAt w 0 (N - 1) = Null).
  { specialize (Hok 0 (N - 1)). unfold cellOK in Hok.
    rewrite !Nat.ltb_irrefl in Hok. apply Hok; lia. }
  assert (Hother : ∀ i j, i < N → j < N → (0 < i ∨ j < N - 1) →
            cellAt w i j = Ref (placedBefore N i j)
            ∧ tiles w !! placedBefore N i j
              = Some (mkTile (reverse tileFrames !! placedBefore N i j) i j)).
  { intros i j Hi Hj Hnb. specialize (Hok i j Hi Hj). unfold cellOK in Hok.
    by rewrite (cellOK_true N i j Hnb) in Hok. }
  split.
  - done.
  - done.
  - intros i j Hi Hj.
    destruct (decide (0 < i ∨ j < N - 1)) as [Hnb|Hb].
    + destruct (Hother i j Hi Hj Hnb) as [-> _]. done.
    + replace i with 0 by lia. replace j with (N - 1) by lia.
      by rewrite Hcorner.
  - exists 0, (N - 1). split; [done|]. intros i j Hn.
    destruct (cellOf_defined (grid w) N i j Hrows Hcols) as [Hi Hj].
    { fold (cellAt w i j). by rewrite Hn. }
    destruct (decide (0 < i ∨ j < N - 1)) as [Hnb|Hb]; [|lia].
    destruct (Hother i j Hi Hj Hnb) as [E _]. congruence.
  - intros t o Ht.
    assert (Hlt : t < N * N - 1)
      by (apply lookup_lt_Some in Ht; lia).
    destruct (placedBefore_inverse N t HN Hlt) as (i & j & Hi & Hj & Hnb & <-).
    destruct (Hother i j Hi Hj Hnb) as [Hc Ho].
    rewrite Ho in Ht. injection Ht as <-. done.
  - intros i j t Hc.
    destruct (cellOf_defined (grid w) N i j Hrows Hcols) as [Hi Hj].
    { fold (cellAt w i j). by rewrite Hc. }
    destruct (decide (0 < i ∨ j < N - 1)) as [Hnb|Hb].
    + destruct (Hother i j Hi Hj Hnb) as [E Ho].
      rewrite E in Hc. injection Hc as <-. eauto.
    + replace i with 0 in Hc by lia. replace j with (N - 1) in Hc by lia.
      congruence.
Qed.

Lemma grid_inv_same (N : nat) (w w' : World) :
  grid w' = grid w → tiles w' = tiles w → grid_inv N w → grid_inv N w'.
Proof.
  intros Hg Ht [H1 H2 H3 H4 H5 H6]. unfold cellAt in *.
  split; unfold cellAt; rewrite ?Hg, ?Ht; done.
Qed.

(** A click on a tile, a completed tween, a finished sound: each keeps the
    invariant, and none creates or destroys a tile. *)
Lemma handle_grid_inv (N : nat) (e : event) (w : World) :
  grid_inv N w →
  (∀ t, e = GameObjectDown t → t < length (tiles w)) →
  ∃ w', handle N e w = (Normal tt, w')
        ∧ grid_inv N w' ∧ length (tiles w') = length (tiles w).
Proof.
  intros Hinv Hclick. destruct e as [t| |]; cbn [handle].
  - destruct (listening w); [|eauto].
    destruct (lookup_lt_is_Some_2 (tiles w) t) as [o Ht];
      [by apply Hclick|].
    rewrite (tileClicked_eq N t w o Hinv Ht).
    destruct (freeNeighbour N w o) as [[r c]|] eqn:Hfree; [|eauto].
    destruct (freeNeighbour_Some N w t o (r, c) Hinv Ht Hfree)
      as (_ & Hr & Hc & Hnull). cbn [fst snd] in *.
    destruct (slideTile_slid N t r c w o Hinv Ht Hr Hc)
      as (w' & Hrun & Hslid & Hcols).
    exists w'. split; [done|].
    split; [by apply (slid_grid_inv N w w' t o r c)|].
    destruct Hslid as (_ & -> & _). by rewrite length_insert.
  - destruct (tweens w) as [|tw rest]; [eauto|].
    set (w1 := mkWorld _ _ _ _ _ _ _ rest).
    assert (Hinv1 : grid_inv N w1) by (by apply (grid_inv_same N w)).
    destruct (checkWin_rows_run N (seq 0 N) w1 Hinv1)
      as (w' & Hrun & Hg & Ht & _).
    { intros i Hi%elem_of_seq. lia. }
    exists w'. split; [done|].
    split; [by apply (grid_inv_same N w1)|]. by rewrite Ht.
  - eexists. split; [done|]. split; [|done].
    by apply (grid_inv_same N w).
Qed.

Lemma run_grid_inv (N : nat) (es : list event) (w : World) :
  grid_inv N w →
  (∀ t, GameObjectDown t ∈ es → t < length (tiles w)) →
  ∃ w', run N es w = (Normal tt, w') ∧ grid_inv N w'.
Proof.
  revert w. induction es as [|e es IH]; intros w Hinv Hclicks.
  - eauto.
  - destruct (handle_grid_inv N e w Hinv) as (w1 & Hrun & Hinv1 & Hlen).
    { intros t ->. apply Hclicks, list_elem_of_here. }
    destruct (IH w1 Hinv1) as (w' & Hrun' & Hinv').
    { intros t Ht. rewrite Hlen. by apply Hclicks, list_elem_of_further. }
    exists w'. split; [|done].
    cbn [run]. unfold bind. by rewrite Hrun.
Qed.

(** X9.  On a page that declares [gridSize] (the guard passes and
    leaves the size [n]), from the page load on, whatever the random
    draws and the events (clicks on tiles, completed tweens, finished
    sounds), the game runs without exception and its grid keeps the
    invariant. *)
Lemma game_grid_inv (g : global) (n : Z) (rnd : nat → nat)
  (es : list event) :
  gridSizeGuard g = Normal n →
  inRange rnd →
  (∀ t, GameObjectDown t ∈ es → (Z.of_nat t < n * n - 1)%Z) →
  ∃ w w', boot g rnd = (Normal tt, w)
          ∧ run (Z.to_nat n) es w = (Normal tt, w')
          ∧ grid_inv (Z.to_nat n) w'.
Proof.
  intros Hg Hrnd Hclicks. pose proof (gridSizeGuard_ge_3 g n Hg) as Hge.
  unfold boot, create. rewrite Hg.
  destruct (shuffleGrid_Permutation (Z.to_nat n) rnd)
    as (tf & -> & _); [lia|].
  destruct (createFrom_cells (Z.to_nat n) tf loaded)
    as (w & Hrun & _ & Hts & _); [lia|done|].
  destruct (createFrom_grid_inv (Z.to_nat n) tf loaded)
    as (w1 & Hrun1 & Hinv); [lia|done|done|].
  assert (w1 = w) as -> by congruence.
  destruct (run_grid_inv (Z.to_nat n) es w Hinv)
    as (w' & Hrun' & Hinv').
  { intros t Ht. specialize (Hclicks t Ht). rewrite Hts. cbn [loaded tiles length].
    nia. }
  eauto.
Qed.

(** ** The correction as the specification words it

    Exchanging the first two entries of a sequence without repetitions
    would change the inversion count by exactly one too: either
    correction repairs the parity, they differ in which entries move. *)
Lemma spec_swapFirstTwo_flips_one_inversion (t : list nat) :
  NoDup t → 2 ≤ length t →
  inv (spec_swapFirstTwo t) = S (inv t)
  ∨ inv t = S (inv (spec_swapFirstTwo t)).
Proof.
  intros HND Hlen. destruct t as [|a [|b rest]]; simpl in Hlen; [lia|lia|].
  assert (a ≠ b).
  { apply NoDup_cons in HND as [Ha _]. intros ->.
    apply Ha, list_elem_of_here. }
  cbn [spec_swapFirstTwo inv]. rewrite !filter_cons.
  destruct (decide (b < a)), (decide (a < b)); cbn [length]; lia.
Qed.

(** * Further properties of the code *)

(** ** More on the inversion count *)

Lemma filter_below_nil (x : nat) (l : list nat) :
  length (filter (λ y, y < x) l) = 0 ↔ Forall (λ y, x ≤ y) l.
Proof.
  induction l as [|y l IH]; [by split; [constructor|]|].
  rewrite filter_cons, Forall_cons.
  destruct (decide (y < x)); cbn [length]; [split; [lia|intros [? _]; lia]|].
  rewrite IH. split; [intros ?; split; [lia|done]|tauto].
Qed.

Lemma inv_zero_sorted (t : list nat) : inv t = 0 ↔ StronglySorted le t.
Proof.
  induction t as [|x t IH]; [split; [constructor|done]|].
  cbn [inv]. split.
  - intros H. constructor.
    + apply IH. lia.
    + apply filter_below_nil. lia.
  - intros H. apply StronglySorted_inv in H as [Hs Hall].
    apply IH in Hs. apply filter_below_nil in Hall. lia.
Qed.

Lemma inv_snoc (l : list nat) (x : nat) :
  inv (l ++ [x]) = inv l + length (filter (λ y, x < y) l).
Proof.
  induction l as [|y l IH]; [done|].
  cbn [app inv]. rewrite IH, filter_app, length_app, !filter_cons, filter_nil.
  destruct (decide (x < y)), (decide (x < y)); cbn [length]; lia.
Qed.

Lemma filter_below_above (x : nat) (l : list nat) :
  x ∉ l →
  length (filter (λ y, y < x) l) + length (filter (λ y, x < y) l) = length l.
Proof.
  induction l as [|y l IH]; [done|].
  intros [Hne Hl]%not_elem_of_cons. specialize (IH Hl).
  rewrite !filter_cons.
  destruct (decide (y < x)), (decide (x < y)); cbn [length]; lia.
Qed.

Lemma filter_above_reverse (x : nat) (l : list nat) :
  length (filter (λ y, x < y) (reverse l)) = length (filter (λ y, x < y) l).
Proof.
  apply Permutation_length. by rewrite reverse_Permutation.
Qed.

Lemma inv_reverse (t : list nat) :
  NoDup t → 2 * (inv (reverse t) + inv t) = length t * (length t - 1).
Proof.
  induction t as [|x t IH]; [done|].
  intros [Hx HND]%NoDup_cons. specialize (IH HND).
  rewrite reverse_cons, inv_snoc, filter_above_reverse. cbn [inv length].
  pose proof (filter_below_above x t Hx). nia.
Qed.

(** X1.  The two loops of [shuffleGrid] count zero inversions exactly for
    the sequences in ascending order (each entry at most every later
    one): only then is nothing out of place. *)
Theorem inversions_zero_iff_ascending (t : list nat) :
  inversions t = 0 ↔ StronglySorted le t.
Proof. rewrite inversions_inv. apply inv_zero_sorted. Qed.

(** X2.  Read backwards, a sequence without repetitions has exactly the
    inversions it did not have forwards: the two counts add up to the
    number of pairs, n (n - 1) / 2. *)
Theorem inversions_reverse (t : list nat) :
  NoDup t →
  2 * (inversions (reverse t) + inversions t) = length t * (length t - 1).
Proof. intros HND. rewrite !inversions_inv. by apply inv_reverse. Qed.

Lemma inversions_reverse_witness :
  NoDup [3; 1; 0; 4]
  ∧ 2 * (inversions (reverse [3; 1; 0; 4]) + inversions [3; 1; 0; 4])
    = length [3; 1; 0; 4] * (length [3; 1; 0; 4] - 1).
Proof.
  assert (HND : NoDup [3; 1; 0; 4])
    by (apply (bool_decide_unpack _); vm_compute; reflexivity).
  split; [exact HND|]. exact (inversions_reverse [3; 1; 0; 4] HND).
Defined.

(** X3.  [shuffleGrid]'s last step either leaves the shuffled sequence as
    it is, when it satisfies the parity rule, or changes its inversion
    count by exactly one, up or down, keeping its length. *)
Theorem ensureSolvable_one_inversion (N : nat) (p : list nat) :
  3 ≤ N → p ≡ₚ tileNumbers0 N →
  (parityRule N p → ensureSolvable N p = Normal p)
  ∧ (¬ parityRule N p →
     ∃ t, ensureSolvable N p = Normal t
          ∧ length t = length p
          ∧ (inversions t = S (inversions p)
             ∨ inversions p = S (inversions t))).
Proof.
  intros HN HP.
  destruct (tiles_have_0_and_1 N p HN HP) as (HND & H0 & H1).
  destruct (ensureSolvable_cases N p HND H0 H1) as [[Hs ->]|[Hs ->]].
  - split; [done|]. intros Hn. exfalso. by apply Hn, solvable_parityRule.
  - split.
    + intros Hr. apply solvable_parityRule in Hr. done.
    + intros _. exists (sigma <$> p). split; [done|].
      split; [by rewrite length_fmap|].
      rewrite !inversions_inv.
      pose proof (inv_sigma p HND) as Hinv.
      by rewrite decide_True in Hinv.
Qed.

Lemma ensureSolvable_one_inversion_witness :
  let p := [3; 1; 0; 4; 5; 6; 7; 8] in
  3 ≤ 3 ∧ p ≡ₚ tileNumbers0 3
  ∧ (parityRule 3 p → ensureSolvable 3 p = Normal p)
  ∧ (¬ parityRule 3 p →
     ∃ t, ensureSolvable 3 p = Normal t
          ∧ length t = length p
          ∧ (inversions t = S (inversions p)
             ∨ inversions p = S (inversions t))).
Proof.
  intros p.
  assert (H3 : 3 ≤ 3) by lia.
  assert (HP : p ≡ₚ tileNumbers0 3)
    by (apply (bool_decide_unpack _); vm_compute; reflexivity).
  split; [done|]. split; [done|].
  exact (ensureSolvable_one_inversion 3 p H3 HP).
Defined.

(** ** More on [create] *)

(** The tile objects are created in row-major order, the t-th one showing
    the t-th frame popped. *)
Lemma createFrom_tiles (N : nat) (tileFrames : list nat) (w0 : World) :
  1 ≤ N → grid w0 = [] → tiles w0 = [] →
  ∃ w, createFrom N tileFrames w0 = (Normal tt, w)
       ∧ length (tiles w) = N * N - 1
       ∧ ∀ t, t < N * N - 1 →
              frame <$> tiles w !! t = Some (reverse tileFrames !! t).
Proof.
  intros HN Hempty Hnone.
  destruct (createFrom_cells N tileFrames w0 HN Hempty)
    as (w & Hrun & _ & Hts & _ & Hok).
  rewrite Hnone in Hts, Hok. cbn [length] in Hts, Hok.
  exists w. split; [done|]. split; [lia|].
  intros t Ht.
  destruct (placedBefore_inverse N t HN Ht) as (i & j & Hi & Hj & Hnb & <-).
  specialize (Hok i j Hi Hj). unfold cellOK in Hok.
  rewrite (cellOK_true N i j Hnb) in Hok. destruct Hok as [_ Ho].
  cbn [Nat.add] in Ho. by rewrite Ho.
Qed.

Lemma createFrom_frames (N : nat) (tileFrames : list nat) (w0 : World) :
  1 ≤ N → grid w0 = [] → tiles w0 = [] →
  length tileFrames = N * N - 1 →
  ∃ w, createFrom N tileFrames w0 = (Normal tt, w)
       ∧ frame <$> tiles w = Some <$> reverse tileFrames.
Proof.
  intros HN Hempty Hnone Hlen.
  destruct (createFrom_tiles N tileFrames w0 HN Hempty Hnone)
    as (w & Hrun & Hts & Hframes).
  exists w. split; [done|].
  apply (list_eq_same_length _ _ (N * N - 1)).
  - by rewrite length_fmap, length_reverse.
  - by rewrite length_fmap.
  - intros t x y Ht Hx Hy.
    rewrite list_lookup_fmap in Hx. rewrite list_lookup_fmap in Hy.
    rewrite (Hframes t Ht) in Hx. injection Hx as <-.
    destruct (reverse tileFrames !! t); [|done]. by injection Hy as <-.
Qed.

(** ** What a computation keeps *)

Section Keeps.

Context (R : relation World) `{!Reflexive R, !Transitive R}.

Lemma keeps_ret {A} (a : A) : keeps R (ret a).
Proof. intros w. reflexivity. Qed.

Lemma keeps_throw {A} (e : exn) : keeps R (throw (A := A) e).
Proof. intros w. reflexivity. Qed.

Lemma keeps_bind {A B} (m : JS A) (k : A → JS B) :
  keeps R m → (∀ a, keeps R (k a)) → keeps R (bind m k).
Proof.
  intros Hm Hk w. unfold bind. specialize (Hm w).
  destruct (m w) as [[a|e] w1]; cbn [snd] in *; [|done].
  etrans; [exact Hm|apply Hk].
Qed.

Lemma keeps_forM {St} (l : list nat) (body : nat → St → JS St) (s : St) :
  (∀ i s, keeps R (body i s)) → keeps R (forM l body s).
Proof.
  intros Hbody. revert s. induction l as [|i l IH]; intros s; cbn [forM].
  - apply keeps_ret.
  - apply keeps_bind; [apply Hbody|apply IH].
Qed.

Lemma keeps_modify (f : World → World) :
  (∀ w, R w (f w)) → keeps R (modify f).
Proof. intros Hf w. apply Hf. Qed.

Lemma keeps_getTile (t : nat) : keeps R (getTile t).
Proof. intros w. unfold getTile. destruct (tiles w !! t); reflexivity. Qed.

Lemma keeps_readCell (r c : nat) : keeps R (readCell r c).
Proof. intros w. unfold readCell. destruct (grid w !! r); reflexivity. Qed.

Lemma keeps_and_then (b : bool) (e : JS bool) :
  keeps R e → keeps R (and_then b e).
Proof. intros He. destruct b; [done|apply keeps_ret]. Qed.

Lemma keeps_isFree (r c : nat) : keeps R (isFree r c).
Proof.
  apply keeps_bind; [apply keeps_readCell|intros; apply keeps_ret].
Qed.

Lemma keeps_mismatch (N i j : nat) : keeps R (mismatch N i j).
Proof.
  apply keeps_bind; [apply keeps_readCell|].
  intros [| |t]; try apply keeps_ret.
  apply keeps_bind; [apply keeps_getTile|intros; apply keeps_ret].
Qed.

Lemma keeps_checkWin_cols (N i : nat) (cols : list nat) :
  keeps R (checkWin_cols N i cols).
Proof.
  induction cols as [|j cols IH]; cbn [checkWin_cols]; [apply keeps_ret|].
  apply keeps_bind; [apply keeps_mismatch|].
  intros [|]; [apply keeps_ret|done].
Qed.

Lemma keeps_checkWin (N : nat) :
  (∀ w, R w (signalWin w)) → keeps R (checkWin N).
Proof.
  intros Hs. unfold checkWin. generalize (seq 0 N) at 1. intros rows.
  induction rows as [|i rows IH]; cbn [checkWin_rows]; [apply keeps_ret|].
  apply keeps_bind; [apply keeps_checkWin_cols|].
  intros [|]; [apply keeps_ret|].
  apply keeps_bind; [by apply keeps_modify|done].
Qed.

Lemma keeps_writeCell (r c : nat) (v : cell) :
  (∀ w g, length g = length (grid w) → R w (set_grid g w)) →
  keeps R (writeCell r c v).
Proof.
  intros Hg w. unfold writeCell.
  destruct (grid w !! r); cbn [snd]; [|reflexivity].
  apply Hg. by rewrite length_insert.
Qed.

Lemma keeps_setTile (t : nat) (f : Tile → Tile) :
  (∀ w ts, frame <$> ts = frame <$> tiles w → R w (set_tiles ts w)) →
  (∀ o, frame (f o) = frame o) →
  keeps R (setTile t f).
Proof.
  intros Hts Hf w. unfold setTile, bind, getTile, modify.
  destruct (tiles w !! t) as [o|] eqn:Ho; cbn [snd]; [|reflexivity].
  apply Hts. rewrite list_fmap_insert.
  apply list_insert_id. by rewrite list_lookup_fmap, Ho, Hf.
Qed.

End Keeps.

#[local] Instance handlerStep_refl : Reflexive handlerStep.
Proof. intros w. unfold handlerStep. repeat split; done. Qed.

#[local] Instance handlerStep_trans : Transitive handlerStep.
Proof.
  intros w1 w2 w3 (F1 & G1 & L1 & B1 & N1 & S1) (F2 & G2 & L2 & B2 & N2 & S2).
  unfold handlerStep. repeat split; try congruence; try lia; auto.
Qed.

#[local] Instance checkStep_refl : Reflexive checkStep.
Proof. intros w. unfold checkStep. repeat split; done. Qed.

#[local] Instance checkStep_trans : Transitive checkStep.
Proof.
  intros w1 w2 w3 (G1 & T1 & W1 & S1 & L1) (G2 & T2 & W2 & S2 & L2).
  unfold checkStep. repeat split; try congruence; auto.
Qed.

#[local] Instance frozenStep_refl : Reflexive frozenStep.
Proof. intros w H. done. Qed.

#[local] Instance frozenStep_trans : Transitive frozenStep.
Proof.
  intros w1 w2 w3 H1 H2 H. destruct (H1 H) as (L & G & T).
  destruct (H2 L) as (L' & G' & T'). repeat split; congruence.
Qed.

#[local] Instance createStep_refl : Reflexive createStep.
Proof. intros w. unfold createStep. repeat split; done. Qed.

#[local] Instance createStep_trans : Transitive createStep.
Proof.
  intros w1 w2 w3 (G1 & T1 & A1 & B1 & C1 & D1) (G2 & T2 & A2 & B2 & C2 & D2).
  unfold createStep. repeat split; try congruence; by etrans.
Qed.

(** ** The handlers, step by step *)

Lemma handlerStep_set_grid (w : World) (g : list (list cell)) :
  length g = length (grid w) → handlerStep w (set_grid g w).
Proof. intros Hg. unfold handlerStep. repeat split; done. Qed.

Lemma handlerStep_set_tiles (w : World) (ts : list Tile) :
  frame <$> ts = frame <$> tiles w → handlerStep w (set_tiles ts w).
Proof. intros Hts. unfold handlerStep. repeat split; done. Qed.

Lemma keeps_slideTile (t r c : nat) : keeps handlerStep (slideTile t r c).
Proof.
  unfold slideTile.
  apply (keeps_bind handlerStep); [apply (keeps_getTile handlerStep)|].
  intros _. apply (keeps_bind handlerStep); [|intros _].
  { apply (keeps_modify handlerStep). intros w.
    unfold handlerStep. repeat split; done. }
  apply (keeps_bind handlerStep); [|intros _].
  { apply (keeps_writeCell handlerStep), handlerStep_set_grid. }
  apply (keeps_bind handlerStep); [|intros _].
  { apply (keeps_bind handlerStep); [apply (keeps_getTile handlerStep)|].
    intros o. apply (keeps_writeCell handlerStep), handlerStep_set_grid. }
  apply (keeps_bind handlerStep); [|intros _].
  { apply (keeps_setTile handlerStep); [apply handlerStep_set_tiles|done]. }
  apply (keeps_bind handlerStep); [|intros _].
  { apply (keeps_setTile handlerStep); [apply handlerStep_set_tiles|done]. }
  apply (keeps_modify handlerStep). intros w.
  unfold handlerStep. cbn. repeat split; try done; lia.
Qed.

Lemma keeps_look (b : bool) (r c : nat) :
  keeps handlerStep (and_then b (isFree r c)).
Proof. apply (keeps_and_then handlerStep), (keeps_isFree handlerStep). Qed.

Lemma keeps_tileClicked (N t : nat) : keeps handlerStep (tileClicked N t).
Proof.
  unfold tileClicked.
  apply (keeps_bind handlerStep); [apply (keeps_getTile handlerStep)|].
  intros o.
  apply (keeps_bind handlerStep); [apply keeps_look|intros [|]];
    [apply keeps_slideTile|].
  apply (keeps_bind handlerStep); [apply keeps_look|intros [|]];
    [apply keeps_slideTile|].
  apply (keeps_bind handlerStep); [apply keeps_look|intros [|]];
    [apply keeps_slideTile|].
  apply (keeps_bind handlerStep); [apply keeps_look|intros [|]];
    [apply keeps_slideTile|apply (keeps_ret handlerStep)].
Qed.

Lemma handlerStep_signalWin (w : World) : handlerStep w (signalWin w).
Proof.
  unfold handlerStep, signalWin. cbn.
  repeat split; try done. destruct (nootIsPlaying w); lia.
Qed.

Lemma checkStep_signalWin (w : World) : checkStep w (signalWin w).
Proof. unfold checkStep, signalWin. cbn. repeat split; done. Qed.

Lemma keeps_handle_handlerStep (N : nat) (e : event) :
  keeps handlerStep (handle N e).
Proof.
  destruct e as [t| |]; cbn [handle].
  - intros w. destruct (listening w); [apply keeps_tileClicked|reflexivity].
  - intros w. destruct (tweens w) as [|tw rest]; [reflexivity|].
    etrans; [|apply (keeps_checkWin handlerStep N handlerStep_signalWin)].
    unfold handlerStep. repeat split; done.
  - apply (keeps_modify handlerStep). intros w.
    unfold handlerStep. repeat split; done.
Qed.

Lemma keeps_handle_frozenStep (N : nat) (e : event) :
  keeps frozenStep (handle N e).
Proof.
  destruct e as [t| |]; cbn [handle].
  - intros w Hoff. by rewrite Hoff.
  - intros w Hoff. destruct (tweens w) as [|tw rest]; [done|].
    set (w1 := mkWorld _ _ _ _ _ _ _ rest).
    destruct (keeps_checkWin checkStep N checkStep_signalWin w1)
      as (Hg & Ht & _ & _ & Hl).
    split; [|by split].
    destruct (listening (checkWin N w1).2); [|done].
    specialize (Hl eq_refl). cbn in Hl. congruence.
  - apply (keeps_modify frozenStep). intros w Hoff. done.
Qed.

Lemma keeps_run (R : relation World) `{!Reflexive R, !Transitive R}
  (N : nat) (es : list event) :
  (∀ e, keeps R (handle N e)) → keeps R (run N es).
Proof.
  intros Hh. induction es as [|e es IH]; cbn [run]; [apply (keeps_ret R)|].
  apply (keeps_bind R); [apply Hh|done].
Qed.

(** ** [create], step by step *)

Lemma keeps_createFrom (N : nat) (tileFrames : list nat) :
  keeps createStep (createFrom N tileFrames).
Proof.
  unfold createFrom.
  apply (keeps_bind createStep); [|intros _].
  - apply (keeps_forM createStep). intros i tf. unfold createRow.
    apply (keeps_bind createStep); [|intros st].
    + apply (keeps_forM createStep). intros j st. unfold createCell.
      destruct ((0 <? i) || (j <? N - 1)); [|apply (keeps_ret createStep)].
      apply (keeps_bind createStep); [|intros; apply (keeps_ret createStep)].
      intros w. unfold createStep, addImage. cbn.
      repeat split; try done. by apply prefix_app_r.
    + apply (keeps_bind createStep); [|intros; apply (keeps_ret createStep)].
      apply (keeps_modify createStep). intros w. unfold createStep. cbn.
      repeat split; try done. by apply prefix_app_r.
  - apply (keeps_modify createStep). intros w. unfold createStep. cbn.
    repeat split; done.
Qed.

(** X4.  Whatever the events and whatever the state, no handler changes
    the frame a tile shows, creates or loses a tile or a grid row, puts
    the click listener or the music back on, or takes back a sound. *)
Theorem run_never_changes_frames (N : nat) (es : list event) (w : World) :
  let w' := (run N es w).2 in
  frame <$> tiles w' = frame <$> tiles w
  ∧ length (grid w') = length (grid w)
  ∧ (listening w' = true → listening w = true)
  ∧ (bgmPlaying w' = true → bgmPlaying w = true)
  ∧ nootPlays w ≤ nootPlays w'
  ∧ slidePlays w ≤ slidePlays w'.
Proof.
  apply (keeps_run handlerStep N es (keeps_handle_handlerStep N) w).
Qed.

(** X5.  Once the click listener is off (as it is after a win), it stays
    off and no event moves a tile any more: grid and tiles stay as they
    are through any run of clicks, tween completions and sound ends. *)
Theorem board_frozen_once_listener_off (N : nat) (es : list event)
  (w : World) :
  listening w = false →
  listening (run N es w).2 = false
  ∧ grid (run N es w).2 = grid w
  ∧ tiles (run N es w).2 = tiles w.
Proof.
  apply (keeps_run frozenStep N es (keeps_handle_frozenStep N) w).
Qed.

Lemma board_frozen_once_listener_off_witness :
  let w := (checkWin 3 exampleWorld).2 in
  let es := [GameObjectDown 4; TweenComplete; GameObjectDown 0] in
  listening w = false
  ∧ listening (run 3 es w).2 = false
  ∧ grid (run 3 es w).2 = grid w
  ∧ tiles (run 3 es w).2 = tiles w.
Proof.
  intros w es.
  assert (Hoff : listening w = false) by reflexivity.
  split; [exact Hoff|].
  exact (board_frozen_once_listener_off 3 es w Hoff).
Defined.

Lemma createFrom_lengths (N : nat) (tileFrames : list nat) (w : World) :
  1 ≤ N →
  ∃ w', createFrom N tileFrames w = (Normal tt, w')
        ∧ length (grid w') = length (grid w) + N
        ∧ length (tiles w') = length (tiles w) + (N * N - 1)
        ∧ listening w' = true ∧ bgmPlaying w' = true.
Proof.
  intros HN. unfold createFrom.
  destruct (forM_inv
    (λ i (tf : list nat) w',
       tf = remaining N tileFrames i 0
       ∧ length (grid w') = length (grid w) + i
       ∧ length (tiles w') = length (tiles w) + placedBefore N i 0)
    (seq 0 N) (createRow N) tileFrames w)
    as (tf & w1 & Hrun & Htf & Hlen & Hts).
  { split; [|split].
    - unfold remaining, placedBefore. simpl.
      rewrite Nat.sub_0_r. by rewrite firstn_all.
    - lia.
    - unfold placedBefore. simpl. lia. }
  { intros k i tf w1 Hi (Htf & Hlen & Hts).
    apply lookup_seq in Hi as [-> Hk]. simpl. subst tf.
    destruct (createRow_step N tileFrames (length (tiles w)) HN k w1 Hts)
      as (cells & w2 & Hrow & Hg & _ & _ & Hts2 & _).
    exists (remaining N tileFrames (S k) 0), w2.
    split; [done|]. split; [done|].
    split; [rewrite Hg, length_app; simpl; lia|done]. }
  rewrite length_seq in *.
  eexists. unfold bind. rewrite Hrun. cbn [modify].
  split; [done|]. cbn. split; [done|]. split; [|done].
  rewrite Hts. unfold placedBefore. destruct (Nat.eqb_spec N 0); nia.
Qed.

(** X6.  [create] never resets the grid: it appends its N rows and its
    N*N-1 tile objects to whatever is there, leaving the rows and tiles
    that exist already as they are, and (re)installs the listener and the
    music.  Started on a grid that already holds a puzzle, it leaves 2N
    rows. *)
Theorem create_appends (N : nat) (tileFrames : list nat) (w : World) :
  ∃ w', createFrom N tileFrames w = (Normal tt, w')
        ∧ grid w `prefix_of` grid w'
        ∧ length (grid w') = length (grid w) + N
        ∧ tiles w `prefix_of` tiles w'
        ∧ length (tiles w') = length (tiles w) + (N * N - 1)
        ∧ listening w' = true ∧ bgmPlaying w' = true.
Proof.
  destruct (keeps_createFrom N tileFrames w) as (Hg & Ht & _).
  destruct (decide (N = 0)) as [->|HN].
  - eexists. split; [reflexivity|]. cbn. repeat split; try done; lia.
  - destruct (createFrom_lengths N tileFrames w) as (w' & Hrun & H); [lia|].
    rewrite Hrun in Hg, Ht. cbn [snd] in Hg, Ht.
    exists w'. tauto.
Qed.

(** X7.  For every size the guard lets through and every outcome of the
    random draws, [create] on the freshly loaded page returns and leaves
    a grid that satisfies the invariant, with the listener installed, the
    music playing and no tween pending. *)
Theorem create_establishes_grid_inv (N : nat) (rnd : nat → nat) :
  3 ≤ N → inRange rnd →
  ∃ w, create N rnd loaded = (Normal tt, w)
       ∧ grid_inv N w
       ∧ listening w = true ∧ bgmPlaying w = true
       ∧ tweens w = [] ∧ nootPlays w = 0 ∧ slidePlays w = 0.
Proof.
  intros HN _. unfold create.
  destruct (shuffleGrid_Permutation N rnd HN) as (tf & -> & _).
  destruct (createFrom_grid_inv N tf loaded) as (w & Hrun & Hinv);
    [lia|done|done|].
  destruct (createFrom_lengths N tf loaded) as (w' & Hrun' & _ & _ & Hl & Hb);
    [lia|].
  assert (w' = w) as -> by congruence.
  destruct (keeps_createFrom N tf loaded) as (_ & _ & _ & Hn & Hs & Ht).
  rewrite Hrun in Hn, Hs, Ht. cbn [snd] in *.
  exists w. done.
Qed.

Lemma create_establishes_grid_inv_witness :
  3 ≤ 4 ∧ inRange (λ i, i / 2)
  ∧ ∃ w, create 4 (λ i, i / 2) loaded = (Normal tt, w)
         ∧ grid_inv 4 w
         ∧ listening w = true ∧ bgmPlaying w = true
         ∧ tweens w = [] ∧ nootPlays w = 0 ∧ slidePlays w = 0.
Proof.
  assert (H4 : 3 ≤ 4) by lia.
  assert (Hrnd : inRange (λ i, i / 2)).
  { intros i. apply Nat.Div0.div_le_upper_bound. lia. }
  split; [done|]. split; [done|].
  exact (create_establishes_grid_inv 4 (λ i, i / 2) H4 Hrnd).
Defined.

(** X8.  The tiles [create] makes show the frames [shuffleGrid] returned,
    last entry first: N*N-1 tiles, no two with the same frame, the frames
    being exactly the numbers below N*N other than N-1, the blank's. *)
Theorem create_tiles_show_the_shuffle (N : nat) (rnd : nat → nat) :
  3 ≤ N → inRange rnd →
  ∃ tileFrames w,
    shuffleGrid N rnd = Normal tileFrames
    ∧ create N rnd loaded = (Normal tt, w)
    ∧ frame <$> tiles w = Some <$> reverse tileFrames
    ∧ length (tiles w) = N * N - 1
    ∧ NoDup (frame <$> tiles w)
    ∧ ∀ f, Some f ∈ frame <$> tiles w ↔ f < N * N ∧ f ≠ N - 1.
Proof.
  intros HN _. unfold create.
  destruct (shuffleGrid_Permutation N rnd HN) as (tf & Htf & HP & _).
  rewrite Htf.
  assert (Hlen : length tf = N * N - 1).
  { rewrite HP. apply tileNumbers0_length. lia. }
  destruct (createFrom_frames N tf loaded) as (w & Hrun & Hframes);
    [lia|done|done|done|].
  exists tf, w. split; [done|]. split; [done|]. split; [done|].
  split; [|split].
  - rewrite <- (length_fmap frame), Hframes, length_fmap, length_reverse.
    done.
  - rewrite Hframes. apply (NoDup_fmap_2 Some).
    rewrite reverse_Permutation, HP. apply tileNumbers0_NoDup. lia.
  - intros f. rewrite Hframes, (list_elem_of_fmap_inj Some).
    rewrite reverse_Permutation, HP. apply tileNumbers0_elem. lia.
Qed.

Lemma create_tiles_show_the_shuffle_witness :
  3 ≤ 3 ∧ inRange (λ _, 0)
  ∧ ∃ tileFrames w,
      shuffleGrid 3 (λ _, 0) = Normal tileFrames
      ∧ create 3 (λ _, 0) loaded = (Normal tt, w)
      ∧ frame <$> tiles w = Some <$> reverse tileFrames
      ∧ length (tiles w) = 3 * 3 - 1
      ∧ NoDup (frame <$> tiles w)
      ∧ ∀ f, Some f ∈ frame <$> tiles w ↔ f < 3 * 3 ∧ f ≠ 3 - 1.
Proof.
  assert (H3 : 3 ≤ 3) by lia.
  assert (Hrnd : inRange (λ _, 0)) by (intros i; lia).
  split; [done|]. split; [done|].
  exact (create_tiles_show_the_shuffle 3 (λ _, 0) H3 Hrnd).
Defined.

(** X10.  A click on a tile next to the blank moves that tile and nothing
    else: the blank cell now holds the tile, the cell it left is null,
    every other cell and every other tile object is as before; the tile
    keeps its frame, its row and col name its new cell, and the slide
    sound is played once. *)
Theorem tileClicked_moves_one_tile (N : nat) (w : World) (t : tid)
  (o : Tile) (r c : nat) :
  grid_inv N w → tiles w !! t = Some o →
  (r, c) ∈ neighbours N (row o) (col o) → cellAt w r c = Null →
  ∃ w', tileClicked N t w = (Normal tt, w')
        ∧ cellAt w' r c = Ref t
        ∧ cellAt w' (row o) (col o) = Null
        ∧ (∀ i j, ¬ (i = r ∧ j = c) → ¬ (i = row o ∧ j = col o) →
                  cellAt w' i j = cellAt w i j)
        ∧ tiles w' !! t = Some (mkTile (frame o) r c)
        ∧ (∀ t', t' ≠ t → tiles w' !! t' = tiles w !! t')
        ∧ slidePlays w' = S (slidePlays w).
Proof.
  intros Hinv Ht Hadj Hnull.
  destruct (grid_inv_in_range N w t o Hinv Ht) as [Hro Hco].
  destruct (neighbours_in_range N _ _ (r, c) Hro Hco Hadj) as [Hr Hc].
  cbn [fst snd] in *.
  assert (Hlt : t < length (tiles w)) by (by eapply lookup_lt_Some).
  rewrite (tileClicked_eq N t w o Hinv Ht).
  rewrite (freeNeighbour_blank N w t o r c Hinv Ht Hadj Hnull).
  cbn [fst snd].
  destruct (slideTile_slid N t r c w o Hinv Ht Hr Hc)
    as (w' & Hrun & (Hcell & Htiles & _ & _ & _ & _ & _ & Hs & _) & _).
  assert (Hne : ¬ (r = row o ∧ c = col o)).
  { intros [-> ->].
    rewrite (inv_tile_placed N w Hinv t o Ht) in Hnull. done. }
  exists w'. split; [done|].
  split; [rewrite Hcell, decide_False by done; by rewrite decide_True|].
  split; [rewrite Hcell; by rewrite decide_True|].
  split.
  { intros i j H1 H2. rewrite Hcell. by rewrite !decide_False. }
  rewrite Htiles. split; [by apply list_lookup_insert_eq|].
  split; [|done]. intros t' Hne'. by apply list_lookup_insert_ne.
Qed.

Lemma tileClicked_moves_one_tile_witness :
  grid_inv 3 exampleWorld
  ∧ tiles exampleWorld !! 4 = Some (mkTile (Some 3) 1 2)
  ∧ (0, 2) ∈ neighbours 3 1 2
  ∧ cellAt exampleWorld 0 2 = Null
  ∧ ∃ w', tileClicked 3 4 exampleWorld = (Normal tt, w')
          ∧ cellAt w' 0 2 = Ref 4
          ∧ cellAt w' 1 2 = Null
          ∧ (∀ i j, ¬ (i = 0 ∧ j = 2) → ¬ (i = 1 ∧ j = 2) →
                    cellAt w' i j = cellAt exampleWorld i j)
          ∧ tiles w' !! 4 = Some (mkTile (Some 3) 0 2)
          ∧ (∀ t', t' ≠ 4 → tiles w' !! t' = tiles exampleWorld !! t')
          ∧ slidePlays w' = S (slidePlays exampleWorld).
Proof.
  assert (Hadj : (0, 2) ∈ neighbours 3 1 2)
    by (vm_compute; apply list_elem_of_here).
  split; [exact exampleWorld_inv|]. split; [reflexivity|].
  split; [exact Hadj|]. split; [reflexivity|].
  exact (tileClicked_moves_one_tile 3 exampleWorld 4
           (mkTile (Some 3) 1 2) 0 2 exampleWorld_inv eq_refl Hadj eq_refl).
Defined.

(** ** [checkWin], exactly *)

Lemma signalWin_idemp (w : World) : signalWin (signalWin w) = signalWin w.
Proof. done. Qed.

Lemma rowAtHome_signalWin (N : nat) (w : World) (i : nat) :
  rowAtHome N (signalWin w) i ↔ rowAtHome N w i.
Proof. done. Qed.

Lemma checkWin_rows_exact (N : nat) (rows : list nat) (w : World) :
  grid_inv N w → (∀ i, i ∈ rows → i < N) →
  ∃ w', checkWin_rows N rows w = (Normal tt, w')
        ∧ match rows with
          | [] => w' = w
          | i :: _ =>
              (rowAtHome N w i → w' = signalWin w)
              ∧ (¬ rowAtHome N w i → w' = w)
          end.
Proof.
  revert w. induction rows as [|i rows IH]; intros w Hinv Hrows.
  - exists w. done.
  - assert (Hi : i < N) by apply Hrows, list_elem_of_here.
    destruct (checkWin_cols_run N w i (seq 0 N) Hinv Hi)
      as (b & Hb & Hhome).
    { intros j Hj%elem_of_seq. lia. }
    assert (Hrow : b = false ↔ rowAtHome N w i).
    { rewrite Hhome. unfold rowAtHome. split.
      - intros H j Hj. apply H, elem_of_seq. lia.
      - intros H j Hj%elem_of_seq. apply H. lia. }
    cbn [checkWin_rows]. unfold bind. rewrite Hb.
    destruct b.
    + exists w. split; [done|]. split; [|done].
      intros H. apply Hrow in H. done.
    + cbn [modify].
      destruct (IH (signalWin w)) as (w' & Hrun & Hw').
      { by apply grid_inv_signalWin. }
      { intros k Hk. by apply Hrows, list_elem_of_further. }
      exists w'. split; [done|]. split.
      * intros _. destruct rows as [|i' rows]; [done|].
        destruct Hw' as [Hyes Hno].
        destruct (checkWin_cols_run N w i' (seq 0 N) Hinv) as (b' & _ & Hb').
        { apply Hrows, list_elem_of_further, list_elem_of_here. }
        { intros j Hj%elem_of_seq. lia. }
        destruct b'.
        -- apply Hno. intros H.
           assert (true = false); [|done]. apply Hb'.
           intros j Hj%elem_of_seq. apply (H j). lia.
        -- rewrite <- (signalWin_idemp w). apply Hyes.
           intros j Hj. apply (proj1 Hb' eq_refl), elem_of_seq. lia.
      * intros H. exfalso. apply H. by apply Hrow.
Qed.

Lemma checkWin_first_row (N : nat) (w : World) :
  1 ≤ N → grid_inv N w →
  (rowAtHome N w 0 → checkWin N w = (Normal tt, signalWin w))
  ∧ (¬ rowAtHome N w 0 → checkWin N w = (Normal tt, w)).
Proof.
  intros HN Hinv. unfold checkWin.
  destruct (checkWin_rows_exact N (seq 0 N) w Hinv) as (w' & Hrun & Hhead).
  { intros i Hi%elem_of_seq. lia. }
  destruct N as [|N]; [lia|]. cbn [seq] in *.
  destruct Hhead as [Hyes Hno]. rewrite Hrun.
  split; [intros H; by rewrite (Hyes H)|].
  intros H; by rewrite (Hno H).
Qed.

(** X11.  What [checkWin] does, exactly: on a grid that satisfies the
    invariant it never throws and never touches the grid or the tiles;
    when the first row is as in the finished picture it ends the game
    (listener off, music off, victory sound on, played once more unless it
    was already playing), however many rows match; otherwise it changes
    nothing at all.  In particular a finished picture always ends the
    game. *)
Theorem checkWin_exact (N : nat) (w : World) :
  1 ≤ N → grid_inv N w →
  (rowAtHome N w 0 → checkWin N w = (Normal tt, signalWin w))
  ∧ (¬ rowAtHome N w 0 → checkWin N w = (Normal tt, w))
  ∧ (solved N w → checkWin N w = (Normal tt, signalWin w)).
Proof.
  intros HN Hinv.
  destruct (checkWin_first_row N w HN Hinv) as [Hyes Hno].
  split; [done|]. split; [done|].
  intros Hs. apply Hyes. intros j Hj. apply Hs; lia.
Qed.

Lemma checkWin_exact_witness :
  1 ≤ 3 ∧ grid_inv 3 exampleWorld
  ∧ (rowAtHome 3 exampleWorld 0 →
     checkWin 3 exampleWorld = (Normal tt, signalWin exampleWorld))
  ∧ (¬ rowAtHome 3 exampleWorld 0 →
     checkWin 3 exampleWorld = (Normal tt, exampleWorld))
  ∧ (solved 3 exampleWorld →
     checkWin 3 exampleWorld = (Normal tt, signalWin exampleWorld)).
Proof.
  assert (H3 : 1 ≤ 3) by lia.
  split; [done|]. split; [exact exampleWorld_inv|].
  exact (checkWin_exact 3 exampleWorld H3 exampleWorld_inv).
Defined.

(** X12.  When no tile shows the blank's frame N-1 (as in every game,
    see X8), [checkWin] can only end the game while the blank is in the
    top-right corner. *)
Theorem checkWin_wins_only_with_blank_in_corner (N : nat) (w : World) :
  1 ≤ N → grid_inv N w →
  (∀ o, o ∈ tiles w → frame o ≠ Some (N - 1)) →
  listening w = true → listening (checkWin N w).2 = false →
  cellAt w 0 (N - 1) = Null.
Proof.
  intros HN Hinv Hframes Hon Hoff.
  destruct (checkWin_first_row N w HN Hinv) as [_ Hno].
  destruct (cellAt w 0 (N - 1)) as [| |t] eqn:Hc; [|done|]; exfalso.
  - by apply (inv_filled N w Hinv 0 (N - 1)); [lia|lia|].
  - destruct (inv_tile_once N w Hinv 0 (N - 1) t Hc) as (o & Ho & _).
    rewrite Hno in Hoff; [cbn in Hoff; congruence|].
    intros Hrow. destruct (Hrow (N - 1)) as [Hn|Hf]; [lia|congruence|].
    unfold frameAt in Hf. rewrite Hc, Ho in Hf. cbn in Hf.
    apply (Hframes o); [by eapply list_elem_of_lookup_2|].
    rewrite Hf. f_equal. lia.
Qed.

Lemma checkWin_wins_only_with_blank_in_corner_witness :
  1 ≤ 3 ∧ grid_inv 3 exampleWorld
  ∧ (∀ o, o ∈ tiles exampleWorld → frame o ≠ Some (3 - 1))
  ∧ listening exampleWorld = true
  ∧ listening (checkWin 3 exampleWorld).2 = false
  ∧ cellAt exampleWorld 0 (3 - 1) = Null.
Proof.
  assert (H3 : 1 ≤ 3) by lia.
  assert (Hframes : ∀ o, o ∈ tiles exampleWorld →
                         frame o ≠ Some (3 - 1)).
  { intros o Ho. apply list_elem_of_lookup_1 in Ho as [t Ht].
    destruct t as [|[|[|[|[|[|[|[|t]]]]]]]]; simpl in Ht;
      try discriminate; injection Ht as <-; done. }
  split; [done|]. split; [exact exampleWorld_inv|]. split; [exact Hframes|].
  split; [reflexivity|]. split; [reflexivity|].
  exact (checkWin_wins_only_with_blank_in_corner 3 exampleWorld H3
           exampleWorld_inv Hframes eq_refl eq_refl).
Defined.

(** A 4-by-4 game on a page whose [gridSize] is declared but left
    undefined: tile 2 slides right into the corner, tile 5 slides up
    after it, the click on tile 0 moves nothing. *)
Lemma game_grid_inv_witness :
  let es := [GameObjectDown 2; TweenComplete; GameObjectDown 5;
             NootComplete; GameObjectDown 0; TweenComplete] in
  gridSizeGuard (Declared None) = Normal 4%Z
  ∧ inRange (λ i, i)
  ∧ (∀ t, GameObjectDown t ∈ es → (Z.of_nat t < 4 * 4 - 1)%Z)
  ∧ ∃ w w', boot (Declared None) (λ i, i) = (Normal tt, w)
            ∧ run (Z.to_nat 4) es w = (Normal tt, w')
            ∧ grid_inv (Z.to_nat 4) w'
            ∧ cellAt w 0 3 = Null ∧ cellAt w' 1 2 = Null
            ∧ slidePlays w' = 2.
Proof.
  intros es.
  assert (Hrnd : inRange (λ i, i)) by (intros i; lia).
  assert (Hes : ∀ t, GameObjectDown t ∈ es → (Z.of_nat t < 4 * 4 - 1)%Z).
  { intros t Ht. unfold es in Ht.
    repeat (apply elem_of_cons in Ht as [Ht|Ht];
            [try discriminate; injection Ht as ->; vm_compute; reflexivity|]).
    by apply elem_of_nil in Ht. }
  split; [reflexivity|]. split; [done|]. split; [done|].
  destruct (game_grid_inv (Declared None) 4%Z (λ i, i) es eq_refl Hrnd Hes)
    as (w & w' & Hboot & Hrun & Hinv).
  exists w, w'. split; [done|]. split; [done|]. split; [done|].
  vm_compute in Hboot. injection Hboot as <-.
  vm_compute in Hrun. injection Hrun as <-.
  done.
Defined.

(** ** Moving one entry of a sequence *)

Lemma filter_below_app_cons (a x : nat) (A B : list nat) :
  length (filter (λ y, y < a) (A ++ x :: B))
  = length (filter (λ y, y < a) (x :: A ++ B)).
Proof.
  apply Permutation_length. by rewrite Permutation_middle.
Qed.

Lemma inv_app_cons (M C : list nat) (x : nat) :
  inv (M ++ x :: C)
  = inv (M ++ C) + length (filter (λ m, x < m) M)
    + length (filter (λ y, y < x) C).
Proof.
  induction M as [|m M IH]; [cbn; lia|].
  cbn [app inv]. rewrite IH, filter_below_app_cons, !filter_cons.
  destruct (decide (x < m)); cbn [length]; lia.
Qed.

Lemma inv_move (A M C : list nat) (x : nat) :
  inv (A ++ x :: M ++ C) + length (filter (λ m, x < m) M)
  = inv (A ++ M ++ x :: C) + length (filter (λ m, m < x) M).
Proof.
  induction A as [|a A IH].
  - cbn [app inv]. rewrite inv_app_cons, filter_app, length_app. lia.
  - cbn [app inv].
    assert (length (filter (λ y, y < a) (A ++ x :: M ++ C))
            = length (filter (λ y, y < a) (A ++ M ++ x :: C))) as ->.
    { apply Permutation_length.
      by rewrite (Permutation_middle M C x). }
    lia.
Qed.

(** Moving an entry past [k] entries that differ from it changes the
    parity of the inversion count exactly when [k] is odd. *)
Lemma inv_move_parity (A M C : list nat) (x : nat) :
  x ∉ M →
  Nat.even (inv (A ++ x :: M ++ C))
  = eqb (Nat.even (inv (A ++ M ++ x :: C))) (Nat.even (length M)).
Proof.
  intros Hx. pose proof (inv_move A M C x) as E.
  pose proof (filter_below_above x M Hx) as F.
  rewrite <- Nat.even_add.
  replace (inv (A ++ M ++ x :: C) + length M)
    with (inv (A ++ x :: M ++ C)
          + 2 * length (filter (λ m, x < m) M)) by lia.
  by rewrite Nat.even_add_mul_2.
Qed.

(** ** Exchanging the blank and a tile in the row-by-row reading *)

Lemma swap_explicit {T} (A M C : list T) (u v : T) :
  <[length A + S (length M) := u]>
    (<[length A := v]> (A ++ u :: M ++ v :: C))
  = A ++ v :: M ++ u :: C.
Proof.
  rewrite (insert_app_r_alt A) by lia. rewrite Nat.sub_diag.
  cbn [insert list_insert].
  rewrite (insert_app_r_alt A) by lia.
  replace (length A + S (length M) - length A) with (S (length M)) by lia.
  cbn [insert list_insert]. f_equal. f_equal.
  rewrite (insert_app_r_alt M) by lia. by rewrite Nat.sub_diag.
Qed.

Lemma split_two {T} (l : list T) (b p : nat) (u v : T) :
  b < p → l !! b = Some u → l !! p = Some v →
  ∃ A M C, l = A ++ u :: M ++ v :: C
           ∧ length A = b ∧ length M = p - b - 1
           ∧ ∀ k y, M !! k = Some y → l !! (b + 1 + k) = Some y.
Proof.
  intros Hbp Hb Hp.
  assert (Hpl : p < length l) by (by eapply lookup_lt_Some).
  pose proof (take_drop_middle l b u Hb) as E1.
  assert (Hd : drop (S b) l !! (p - b - 1) = Some v).
  { rewrite lookup_drop. rewrite <- Hp. f_equal. lia. }
  pose proof (take_drop_middle _ _ v Hd) as E2.
  exists (take b l), (take (p - b - 1) (drop (S b) l)),
    (drop (S (p - b - 1)) (drop (S b) l)).
  split; [by rewrite E2|].
  split; [rewrite length_take; lia|].
  split; [rewrite length_take, length_drop; lia|].
  intros k y Hk. apply lookup_take_Some in Hk as [Hk Hlt].
  rewrite lookup_drop in Hk. rewrite <- Hk. f_equal. lia.
Qed.

Lemma omap_all_Some (M : list (option nat)) :
  (∀ k v, M !! k = Some v → is_Some v) →
  length (omap id M) = length M.
Proof.
  induction M as [|[y|] M IH]; intros H; [done| |].
  - cbn. f_equal. apply IH. intros k v Hk. by apply (H (S k)).
  - by destruct (H 0 None eq_refl).
Qed.

Lemma omap_tile_first (A M C : list (option nat)) (x : nat) :
  omap id (A ++ Some x :: M ++ None :: C)
  = omap id A ++ x :: omap id M ++ omap id C.
Proof.
  rewrite omap_app. f_equal.
  change (omap id (Some x :: M ++ None :: C))
    with (x :: omap id (M ++ None :: C)).
  f_equal. by rewrite omap_app.
Qed.

Lemma omap_gap_first (A M C : list (option nat)) (x : nat) :
  omap id (A ++ None :: M ++ Some x :: C)
  = omap id A ++ omap id M ++ x :: omap id C.
Proof.
  rewrite omap_app. f_equal.
  change (omap id (None :: M ++ Some x :: C))
    with (omap id (M ++ Some x :: C)).
  by rewrite omap_app.
Qed.

Lemma eqb_swap (a b c : bool) : a = eqb b c → b = eqb a c.
Proof. by destruct a, b, c. Qed.

(** In a row-by-row reading with one gap, filling the gap with the entry
    found [d + 1] places further on (or back) changes the parity of the
    inversion count exactly when [d] is odd. *)
Lemma reading_swap (l : list (option nat)) (b p x : nat) :
  l !! b = Some None → l !! p = Some (Some x) →
  (∀ k v, l !! k = Some v → k ≠ b → is_Some v) →
  (∀ k, l !! k = Some (Some x) → k = p) →
  Nat.even (inv (omap id (<[p := None]> (<[b := Some x]> l))))
  = eqb (Nat.even (inv (omap id l)))
        (Nat.even (if b <? p then p - b - 1 else b - p - 1)).
Proof.
  intros Hb Hp Hsome Huniq.
  assert (b ≠ p) by (intros ->; congruence).
  destruct (Nat.ltb_spec b p) as [Hlt|Hge].
  - destruct (split_two l b p None (Some x) Hlt Hb Hp)
      as (A & M & C & El & HA & HM & Hmid).
    assert (HMs : length (omap id M) = length M).
    { apply omap_all_Some. intros k v Hk.
      apply (Hsome (b + 1 + k)); [by apply Hmid|lia]. }
    assert (HxM : x ∉ omap id M).
    { intros Hin. apply list_elem_of_omap in Hin as (v & Hv & Hx).
      destruct v as [y|]; [|done]. cbn in Hx. injection Hx as ->.
      apply list_elem_of_lookup_1 in Hv as [k Hk].
      pose proof (lookup_lt_Some _ _ _ Hk).
      pose proof (Huniq _ (Hmid k _ Hk)). lia. }
    replace (p - b - 1) with (length (omap id M)) by lia.
    replace (<[p := None]> (<[b := Some x]> l))
      with (A ++ Some x :: M ++ None :: C).
    2:{ rewrite El. replace p with (length A + S (length M)) by lia.
        rewrite <- HA. by rewrite swap_explicit. }
    rewrite omap_tile_first, El, omap_gap_first.
    by apply inv_move_parity.
  - assert (Hlt : p < b) by lia.
    destruct (split_two l p b (Some x) None Hlt Hp Hb)
      as (A & M & C & El & HA & HM & Hmid).
    assert (HMs : length (omap id M) = length M).
    { apply omap_all_Some. intros k v Hk.
      apply (Hsome (p + 1 + k)); [by apply Hmid|].
      apply lookup_lt_Some in Hk. lia. }
    assert (HxM : x ∉ omap id M).
    { intros Hin. apply list_elem_of_omap in Hin as (v & Hv & Hx).
      destruct v as [y|]; [|done]. cbn in Hx. injection Hx as ->.
      apply list_elem_of_lookup_1 in Hv as [k Hk].
      pose proof (Huniq _ (Hmid k _ Hk)). lia. }
    replace (b - p - 1) with (length (omap id M)) by lia.
    replace (<[p := None]> (<[b := Some x]> l))
      with (A ++ None :: M ++ Some x :: C).
    2:{ rewrite list_insert_insert_ne by done.
        rewrite El. replace b with (length A + S (length M)) by lia.
        rewrite <- HA. by rewrite swap_explicit. }
    rewrite omap_gap_first, El, omap_tile_first.
    apply eqb_swap. by apply inv_move_parity.
Qed.

(** ** The grid, read row by row *)

Lemma grid_inv_Forall (N : nat) (w : World) :
  grid_inv N w → Forall (λ cells, length cells = N) (grid w).
Proof.
  intros Hinv. apply Forall_lookup. intros i cells. by apply inv_cols.
Qed.

Lemma flat_length (N : nat) (w : World) :
  grid_inv N w → length (flat w) = N * N.
Proof.
  intros Hinv. unfold flat. rewrite length_join.
  rewrite (sum_list_fmap_same N) by (by apply grid_inv_Forall).
  by rewrite (inv_rows N w Hinv).
Qed.

Lemma flat_lookup (N : nat) (w : World) (i j : nat) :
  grid_inv N w → i < N → j < N →
  flat w !! (i * N + j) = Some (cellAt w i j).
Proof.
  intros Hinv Hi Hj. unfold flat.
  apply (join_lookup_Some_same_length' N); [by apply grid_inv_Forall|done|].
  destruct (lookup_lt_is_Some_2 (grid w) i) as [cells Hcells];
    [by rewrite (inv_rows N w Hinv)|].
  exists cells. split; [done|]. unfold cellAt, cellOf, js_get.
  rewrite Hcells.
  destruct (lookup_lt_is_Some_2 cells j) as [x ->];
    [by rewrite (inv_cols N w Hinv i cells)|done].
Qed.

Lemma flat_lookup_inv (N : nat) (w : World) (k : nat) (x : cell) :
  grid_inv N w → flat w !! k = Some x →
  ∃ i j, i < N ∧ j < N ∧ k = i * N + j ∧ cellAt w i j = x.
Proof.
  intros Hinv Hk. unfold flat in Hk.
  apply (join_lookup_Some_same_length N) in Hk;
    [|by apply grid_inv_Forall].
  destruct Hk as (i & cells & j & Hi & Hj & ->).
  exists i, j.
  split; [apply lookup_lt_Some in Hi; by rewrite (inv_rows N w Hinv) in Hi|].
  split; [apply lookup_lt_Some in Hj;
          by rewrite (inv_cols N w Hinv i cells Hi) in Hj|].
  split; [done|]. unfold cellAt, cellOf, js_get. by rewrite Hi, Hj.
Qed.

Lemma index_inj (N i j i' j' : nat) :
  j < N → j' < N → i * N + j = i' * N + j' → i = i' ∧ j = j'.
Proof. intros Hj Hj' E. assert (i = i') by nia. subst. lia. Qed.

(** The blank's row is the row of the one null cell. *)
Lemma blankRow_eq (N : nat) (w : World) (bi bj : nat) :
  grid_inv N w → cellAt w bi bj = Null → blankRow w = bi.
Proof.
  intros Hinv Hb. unfold blankRow.
  destruct (inv_one_null N w Hinv) as (bi' & bj' & _ & Huniq).
  destruct (cellOf_defined (grid w) N bi bj) as [Hi Hj];
    [by apply inv_rows|by apply inv_cols|
     fold (cellAt w bi bj); by rewrite Hb|].
  destruct (lookup_lt_is_Some_2 (grid w) bi) as [cells Hcells];
    [by rewrite (inv_rows N w Hinv)|].
  assert (Hin : Null ∈ cells).
  { unfold cellAt, cellOf, js_get in Hb. rewrite Hcells in Hb.
    destruct (cells !! bj) as [x|] eqn:Hx; [|done]. cbn in Hb. subst x.
    by eapply list_elem_of_lookup_2. }
  destruct (list_find (λ cells, Null ∈ cells) (grid w)) as [[i cs]|] eqn:Hf.
  - cbn. apply list_find_Some in Hf as (Hi' & Hn & _).
    apply list_elem_of_lookup_1 in Hn as [j Hj'].
    assert (cellAt w i j = Null) as Hc
      by (unfold cellAt, cellOf, js_get; by rewrite Hi', Hj').
    destruct (Huniq i j Hc) as [-> _]. by destruct (Huniq bi bj Hb) as [-> _].
  - exfalso. apply list_find_None in Hf.
    rewrite Forall_lookup in Hf. by apply (Hf bi cells).
Qed.

Lemma omap_id_fmap {A} (f : A → option nat) (l : list A) :
  omap f l = omap id (f <$> l).
Proof.
  induction l as [|a l IH]; [done|]. cbn. destruct (f a); cbn; by rewrite IH.
Qed.

Lemma framesOk_Some (w : World) (t : nat) (o : Tile) :
  framesOk w → tiles w !! t = Some o → is_Some (frame o).
Proof.
  intros [_ Hall] Ht. rewrite Forall_lookup in Hall.
  apply (Hall t). by rewrite list_lookup_fmap, Ht.
Qed.

Lemma framesOk_inj (w : World) (t t' : nat) (o o' : Tile) :
  framesOk w → tiles w !! t = Some o → tiles w !! t' = Some o' →
  frame o = frame o' → t = t'.
Proof.
  intros [HND _] Ht Ht' E.
  apply (NoDup_lookup _ _ _ (frame o) HND).
  - by rewrite list_lookup_fmap, Ht.
  - by rewrite list_lookup_fmap, Ht', E.
Qed.

Lemma neighbours_cases (N ro co r c : nat) :
  (r, c) ∈ neighbours N ro co →
  (0 < ro ∧ r = ro - 1 ∧ c = co) ∨ (r = ro + 1 ∧ c = co)
  ∨ (0 < co ∧ r = ro ∧ c = co - 1) ∨ (r = ro ∧ c = co + 1).
Proof.
  unfold neighbours. rewrite !elem_of_app.
  destruct (Nat.ltb_spec 0 ro), (Nat.ltb_spec ro (N - 1)),
    (Nat.ltb_spec 0 co), (Nat.ltb_spec co (N - 1));
    rewrite ?list_elem_of_singleton, ?elem_of_nil;
    intros [E|[E|[E|E]]]; try done; injection E as -> ->; lia.
Qed.

(** A slide into the blank keeps the parity of the board. *)
Lemma slid_boardEven (N : nat) (w w' : World) (t : tid) (o : Tile)
  (r c : nat) :
  grid_inv N w → framesOk w → tiles w !! t = Some o →
  (r, c) ∈ neighbours N (row o) (col o) → cellAt w r c = Null →
  slid w t o r c w' →
  (∀ k cs, grid w' !! k = Some cs → length cs = N) →
  boardEven N w' = boardEven N w.
Proof.
  intros Hinv Hok Ht Hadj Hnull Hslid Hcols'.
  destruct (grid_inv_in_range N w t o Hinv Ht) as [Hro Hco].
  destruct (neighbours_in_range N _ _ (r, c) Hro Hco Hadj) as [Hr Hc].
  cbn [fst snd] in *.
  pose proof (slid_grid_inv N w w' t o r c Hinv Ht Hr Hc Hnull Hslid Hcols')
    as Hinv'.
  destruct Hslid as (Hcell & Htiles & _).
  pose proof (inv_tile_placed N w Hinv t o Ht) as Hhere.
  assert (Hlt : t < length (tiles w)) by (by eapply lookup_lt_Some).
  destruct (framesOk_Some w t o Hok Ht) as [x Hx].
  assert (Hne : ¬ (r = row o ∧ c = col o)).
  { intros [-> ->]. congruence. }
  (* the frames are where they were *)
  assert (Hframe : ∀ cl, cellFrame w' cl = cellFrame w cl).
  { intros [| |t']; [done|done|]. cbn. rewrite Htiles.
    destruct (decide (t' = t)) as [->|Hne'].
    - rewrite list_lookup_insert_eq by done. by rewrite Ht.
    - by rewrite list_lookup_insert_ne. }
  (* the reading of the new grid *)
  set (po := row o * N + col o). set (pn := r * N + c).
  assert (Hflat : flat w' = <[po := Null]> (<[pn := Ref t]> (flat w))).
  { apply (list_eq_same_length _ _ (N * N)).
    - rewrite !length_insert. by apply flat_length.
    - by apply flat_length.
    - intros k y z Hk Hy Hz.
      destruct (flat_lookup_inv N w' k y Hinv' Hy)
        as (i & j & Hi & Hj & -> & <-).
      rewrite Hcell.
      destruct (decide (i = row o ∧ j = col o)) as [[-> ->]|Hn1].
      + fold po in Hz. rewrite list_lookup_insert_eq in Hz; [congruence|].
        rewrite length_insert, (flat_length N w Hinv). unfold po. nia.
      + rewrite list_lookup_insert_ne in Hz.
        2:{ unfold po. intros E. apply Hn1. symmetry in E.
            by apply index_inj in E. }
        destruct (decide (i = r ∧ j = c)) as [[-> ->]|Hn2].
        * fold pn in Hz. rewrite list_lookup_insert_eq in Hz; [congruence|].
          rewrite (flat_length N w Hinv). unfold pn. nia.
        * rewrite list_lookup_insert_ne in Hz.
          2:{ unfold pn. intros E. apply Hn2. symmetry in E.
              by apply index_inj in E. }
          rewrite (flat_lookup N w i j Hinv Hi Hj) in Hz. congruence. }
  (* the reading as a list of frames with one gap *)
  set (l := cellFrame w <$> flat w).
  assert (Hb : l !! pn = Some None).
  { unfold l, pn. rewrite list_lookup_fmap, (flat_lookup N w r c) by done.
    by rewrite Hnull. }
  assert (Hp : l !! po = Some (Some x)).
  { unfold l, po. rewrite list_lookup_fmap, (flat_lookup N w _ _) by done.
    rewrite Hhere. cbn. rewrite Ht. cbn. by rewrite Hx. }
  assert (Hsome : ∀ k v, l !! k = Some v → k ≠ pn → is_Some v).
  { intros k v Hk Hkn. unfold l in Hk. rewrite list_lookup_fmap in Hk.
    destruct (flat w !! k) as [cl|] eqn:Hcl; [|done]. injection Hk as <-.
    destruct (flat_lookup_inv N w k cl Hinv Hcl)
      as (i & j & Hi & Hj & -> & <-).
    pose proof (inv_filled N w Hinv i j Hi Hj) as Hdef.
    destruct (cellAt w i j) as [| |t'] eqn:Hc'; [done| |].
    - exfalso. apply Hkn.
      destruct (inv_one_null N w Hinv) as (bi & bj & _ & Hu).
      destruct (Hu i j Hc') as [-> ->]. by destruct (Hu r c Hnull) as [-> ->].
    - destruct (inv_tile_once N w Hinv i j t' Hc') as (o' & Ho' & _).
      cbn. rewrite Ho'. cbn. by apply (framesOk_Some w t' o'). }
  assert (Huniq : ∀ k, l !! k = Some (Some x) → k = po).
  { intros k Hk. unfold l in Hk. rewrite list_lookup_fmap in Hk.
    destruct (flat w !! k) as [cl|] eqn:Hcl; [|done].
    destruct (flat_lookup_inv N w k cl Hinv Hcl)
      as (i & j & Hi & Hj & -> & <-).
    destruct (cellAt w i j) as [| |t'] eqn:Hc'; [done|done|].
    destruct (inv_tile_once N w Hinv i j t' Hc') as (o' & Ho' & <- & <-).
    cbn in Hk. rewrite Ho' in Hk. cbn in Hk. injection Hk as Hk.
    assert (t' = t) as -> by (eapply framesOk_inj; [done..|congruence]).
    assert (o' = o) as -> by congruence. done. }
  pose proof (reading_swap l pn po x Hb Hp Hsome Huniq) as Hswap.
  assert (Hboard' : board w' = omap id (<[po := None]> (<[pn := Some x]> l))).
  { unfold board. rewrite omap_id_fmap.
    rewrite (list_fmap_ext _ (cellFrame w)) by (intros; apply Hframe).
    rewrite Hflat, !list_fmap_insert. cbn. rewrite Ht. cbn.
    by rewrite Hx. }
  assert (Hboard : board w = omap id l) by apply omap_id_fmap.
  unfold boardEven. rewrite !inversions_inv, Hboard', <- Hboard in *.
  rewrite (blankRow_eq N w r c Hinv Hnull).
  assert (Hnull' : cellAt w' (row o) (col o) = Null)
    by (rewrite Hcell; by rewrite decide_True).
  rewrite (blankRow_eq N w' (row o) (col o) Hinv' Hnull').
  rewrite !Nat.even_add, Hswap.
  assert (Hd : (if pn <? po then po - pn - 1 else pn - po - 1)
               = if decide (c = col o) then N - 1 else 0).
  { unfold po, pn.
    destruct (neighbours_cases N _ _ r c Hadj)
      as [(Hpos & -> & ->)|[(-> & ->)|[(Hpos & -> & ->)|(-> & ->)]]];
      case_decide; try lia;
      match goal with
      | |- context [?a <? ?b] => destruct (Nat.ltb_spec a b)
      end; nia. }
  rewrite Hd. clear Hswap Hd.
  assert (Hrow : (c = col o ∧ (r = row o + 1 ∨ row o = r + 1))
                 ∨ (c ≠ col o ∧ r = row o)).
  { destruct (neighbours_cases N _ _ r c Hadj)
      as [(Hpos & -> & ->)|[(-> & ->)|[(Hpos & -> & ->)|(-> & ->)]]]; lia. }
  destruct Hrow as [[-> Hv]|[Hh ->]].
  - rewrite decide_True by done. rewrite Nat.even_sub by lia.
    assert (Nat.even r = negb (Nat.even (row o))) as Hflip.
    { destruct Hv as [->| ->]; rewrite Nat.even_add; cbn [Nat.even];
        by destruct (Nat.even _). }
    destruct (Nat.even N); cbn [Nat.even]; [rewrite Hflip|];
      by destruct (Nat.even (inv (board w))), (Nat.even (row o)).
  - rewrite decide_False by done. cbn [Nat.even].
    by destruct (Nat.even N), (Nat.even (inv (board w))),
      (Nat.even (row o)).
Qed.

(** ** The parity of the board through the game *)

Lemma boardEven_same (N : nat) (w w' : World) :
  grid w' = grid w → tiles w' = tiles w → boardEven N w' = boardEven N w.
Proof.
  intros Hg Ht. unfold boardEven, board, blankRow, flat, cellFrame.
  by rewrite Hg, Ht.
Qed.

Lemma framesOk_same (w w' : World) :
  frame <$> tiles w' = frame <$> tiles w → framesOk w → framesOk w'.
Proof. intros E. unfold framesOk. by rewrite E. Qed.

Lemma handle_boardEven (N : nat) (e : event) (w : World) :
  grid_inv N w → framesOk w →
  (∀ t, e = GameObjectDown t → t < length (tiles w)) →
  ∃ w', handle N e w = (Normal tt, w')
        ∧ grid_inv N w' ∧ framesOk w'
        ∧ length (tiles w') = length (tiles w)
        ∧ boardEven N w' = boardEven N w.
Proof.
  intros Hinv Hok Hclick.
  destruct (handle_grid_inv N e w Hinv Hclick) as (w' & Hrun & Hinv' & Hlen).
  exists w'. split; [done|]. split; [done|].
  pose proof (keeps_handle_handlerStep N e w) as (Hframes & _).
  rewrite Hrun in Hframes. cbn [snd] in Hframes.
  split; [by apply (framesOk_same w)|]. split; [done|].
  destruct e as [t| |]; cbn [handle] in Hrun.
  - destruct (listening w); [|by injection Hrun as <-].
    destruct (lookup_lt_is_Some_2 (tiles w) t) as [o Ht];
      [by apply Hclick|].
    rewrite (tileClicked_eq N t w o Hinv Ht) in Hrun.
    destruct (freeNeighbour N w o) as [[r c]|] eqn:Hfree;
      [|by injection Hrun as <-].
    destruct (freeNeighbour_Some N w t o (r, c) Hinv Ht Hfree)
      as (Hadj & Hr & Hc & Hnull). cbn [fst snd] in *.
    destruct (slideTile_slid N t r c w o Hinv Ht Hr Hc)
      as (w1 & Hrun1 & Hslid & Hcols).
    assert (w1 = w') as -> by congruence.
    by apply (slid_boardEven N w w' t o r c).
  - destruct (tweens w) as [|tw rest]; [by injection Hrun as <-|].
    pose proof (keeps_checkWin checkStep N checkStep_signalWin
                  (mkWorld (grid w) (tiles w) (listening w) (bgmPlaying w)
                     (nootIsPlaying w) (nootPlays w) (slidePlays w) rest))
      as (Hg & Ht & _).
    rewrite Hrun in Hg, Ht. cbn in Hg, Ht. by apply boardEven_same.
  - injection Hrun as <-. by apply boardEven_same.
Qed.

Lemma run_boardEven (N : nat) (es : list event) (w : World) :
  grid_inv N w → framesOk w →
  (∀ t, GameObjectDown t ∈ es → t < length (tiles w)) →
  ∃ w', run N es w = (Normal tt, w')
        ∧ grid_inv N w' ∧ framesOk w'
        ∧ boardEven N w' = boardEven N w.
Proof.
  revert w. induction es as [|e es IH]; intros w Hinv Hok Hclicks.
  - eauto.
  - destruct (handle_boardEven N e w Hinv Hok)
      as (w1 & Hrun & Hinv1 & Hok1 & Hlen & Hb1).
    { intros t ->. apply Hclicks, list_elem_of_here. }
    destruct (IH w1 Hinv1 Hok1) as (w' & Hrun' & Hinv' & Hok' & Hb').
    { intros t Ht. rewrite Hlen. by apply Hclicks, list_elem_of_further. }
    exists w'. split; [|split; [done|split; [done|congruence]]].
    cbn [run]. unfold bind. by rewrite Hrun.
Qed.

(** ** The board [create] deals *)

Lemma omap_id_Some (l : list nat) : omap id (Some <$> l) = l.
Proof. induction l as [|x l IH]; [done|]. cbn. by rewrite IH. Qed.

Lemma gap_lookup (R : list nat) (n k : nat) :
  n ≤ length R → k ≤ length R →
  ((Some <$> take n R) ++ None :: (Some <$> drop n R)) !! k
  = Some (if decide (k = n) then None
          else R !! (if decide (k < n) then k else k - 1)).
Proof.
  intros Hn Hk.
  assert (Hl : length (Some <$> take n R) = n)
    by (rewrite length_fmap, length_take; lia).
  destruct (decide (k = n)) as [->|Hne].
  - rewrite lookup_app_r by lia. by rewrite Hl, Nat.sub_diag.
  - destruct (decide (k < n)) as [Hlt|Hge].
    + rewrite lookup_app_l by lia.
      rewrite list_lookup_fmap, lookup_take_lt by done.
      destruct (lookup_lt_is_Some_2 R k) as [x ->]; [lia|done].
    + rewrite lookup_app_r by lia. rewrite Hl.
      rewrite lookup_cons_ne_0 by lia.
      rewrite list_lookup_fmap, lookup_drop.
      replace (n + Nat.pred (k - n)) with (k - 1) by lia.
      destruct (lookup_lt_is_Some_2 R (k - 1)) as [x ->]; [lia|done].
Qed.

Lemma createFrom_board (N : nat) (tileFrames : list nat) (w0 : World) :
  1 ≤ N → grid w0 = [] → tiles w0 = [] →
  length tileFrames = N * N - 1 →
  ∃ w, createFrom N tileFrames w0 = (Normal tt, w)
       ∧ grid_inv N w
       ∧ board w = reverse tileFrames
       ∧ blankRow w = 0.
Proof.
  intros HN Hempty Hnone Hlen.
  destruct (createFrom_cells N tileFrames w0 HN Hempty)
    as (w & Hrun & _ & _ & _ & Hok).
  destruct (createFrom_grid_inv N tileFrames w0 HN Hempty Hnone)
    as (w1 & Hrun1 & Hinv).
  assert (w1 = w) as -> by congruence.
  rewrite Hnone in Hok. cbn [length Nat.add] in Hok.
  exists w. split; [done|]. split; [done|].
  set (R := reverse tileFrames).
  assert (HR : length R = N * N - 1) by (unfold R; by rewrite length_reverse).
  split.
  - unfold board. rewrite omap_id_fmap.
    replace (cellFrame w <$> flat w)
      with ((Some <$> take (N - 1) R) ++ None :: (Some <$> drop (N - 1) R)).
    { rewrite omap_app. cbn. rewrite !omap_id_Some. apply take_drop. }
    apply (list_eq_same_length _ _ (N * N)).
    + by rewrite length_fmap, (flat_length N w Hinv).
    + rewrite length_app, length_fmap, length_take. cbn [length].
      rewrite length_fmap, length_drop. nia.
    + intros k x y Hk Hx Hy.
      rewrite gap_lookup in Hx by nia. injection Hx as <-.
      rewrite list_lookup_fmap in Hy.
      destruct (flat w !! k) as [cl|] eqn:Hcl; [|done]. injection Hy as <-.
      destruct (flat_lookup_inv N w k cl Hinv Hcl)
        as (i & j & Hi & Hj & -> & <-).
      specialize (Hok i j Hi Hj). unfold cellOK in Hok.
      cbn [Nat.add] in Hok.
      destruct (decide (0 < i ∨ j < N - 1)) as [Hnb|Hb].
      * rewrite (cellOK_true N i j Hnb) in Hok. destruct Hok as [-> Ho].
        cbn. rewrite Ho. cbn. fold R.
        assert (i = 0 ∨ N ≤ i * N) as Hcase
          by (destruct i; [left|right]; nia).
        rewrite decide_False by (destruct Hcase, Hnb; nia).
        f_equal. unfold placedBefore.
        destruct (Nat.eqb_spec i 0); case_decide; destruct Hcase, Hnb; nia.
      * assert (i = 0 ∧ j = N - 1) as [-> ->] by lia.
        rewrite !Nat.ltb_irrefl in Hok. cbn in Hok. rewrite Hok.
        rewrite decide_True by lia. done.
  - apply (blankRow_eq N w 0 (N - 1) Hinv).
    specialize (Hok 0 (N - 1)). unfold cellOK in Hok.
    rewrite !Nat.ltb_irrefl in Hok. apply Hok; lia.
Qed.

Lemma triangle_even (N : nat) (a b : nat) :
  3 ≤ N → 2 * (a + b) = (N * N - 1) * (N * N - 1 - 1) →
  Nat.even b = negb (Nat.even N) →
  Nat.even a = true.
Proof.
  intros HN E Hb.
  destruct (Nat.Even_or_Odd N) as [[k ->]|[k ->]].
  - rewrite Nat.even_even in Hb. cbn in Hb.
    assert (Nat.Odd b) as [m ->].
    { apply Nat.odd_spec. unfold Nat.odd. by rewrite Hb. }
    apply Nat.even_spec. exists (4 * k * k * k * k - 3 * k * k - m).
    assert (3 * k * k ≤ 4 * k * k * k * k) by nia.
    assert (a + 2 * m = 2 * (4 * k * k * k * k - 3 * k * k)); [|lia].
    nia.
  - rewrite Nat.even_odd in Hb. cbn in Hb.
    apply Nat.even_spec in Hb as [m ->].
    apply Nat.even_spec.
    exists ((k * k + k) * (4 * k * k + 4 * k - 1) - m).
    assert (a + 2 * m = 2 * ((k * k + k) * (4 * k * k + 4 * k - 1))); [|lia].
    nia.
Qed.

Lemma parityRule_even (N : nat) (t : list nat) :
  parityRule N t → Nat.even (inv t) = negb (Nat.even N).
Proof.
  rewrite <- inversions_inv. intros [Hodd Heven].
  destruct (Nat.Even_or_Odd N) as [HE|HO].
  - pose proof (Heven HE) as Hi. apply Nat.even_spec in HE. rewrite HE.
    apply Nat.odd_spec in Hi. unfold Nat.odd in Hi.
    by destruct (Nat.even (inversions t)).
  - pose proof (Hodd HO) as Hi. apply Nat.odd_spec in HO.
    unfold Nat.odd in HO. destruct (Nat.even N); [done|].
    by apply Nat.even_spec.
Qed.

Lemma exampleWorld_framesOk : framesOk exampleWorld.
Proof.
  split; apply (bool_decide_unpack _); vm_compute; reflexivity.
Qed.

(** X13.  No click changes the parity of the board: the number of
    inversions of the frames in reading order, plus the blank's row when
    the size is even, stays even or stays odd, whether the tile slides
    sideways, up or down, or does not move. *)
Theorem tileClicked_keeps_board_parity (N : nat) (w : World) (t : tid)
  (o : Tile) :
  grid_inv N w → framesOk w → tiles w !! t = Some o →
  ∃ w', tileClicked N t w = (Normal tt, w')
        ∧ boardEven N w' = boardEven N w.
Proof.
  intros Hinv Hok Ht. rewrite (tileClicked_eq N t w o Hinv Ht).
  destruct (freeNeighbour N w o) as [[r c]|] eqn:Hfree; [|eauto].
  destruct (freeNeighbour_Some N w t o (r, c) Hinv Ht Hfree)
    as (Hadj & Hr & Hc & Hnull). cbn [fst snd] in *.
  destruct (slideTile_slid N t r c w o Hinv Ht Hr Hc)
    as (w' & Hrun & Hslid & Hcols).
  exists w'. split; [done|]. by apply (slid_boardEven N w w' t o r c).
Qed.

Lemma tileClicked_keeps_board_parity_witness :
  grid_inv 3 exampleWorld ∧ framesOk exampleWorld
  ∧ tiles exampleWorld !! 4 = Some (mkTile (Some 3) 1 2)
  ∧ ∃ w', tileClicked 3 4 exampleWorld = (Normal tt, w')
          ∧ boardEven 3 w' = boardEven 3 exampleWorld.
Proof.
  split; [exact exampleWorld_inv|]. split; [exact exampleWorld_framesOk|].
  split; [reflexivity|].
  exact (tileClicked_keeps_board_parity 3 exampleWorld 4
           (mkTile (Some 3) 1 2) exampleWorld_inv exampleWorld_framesOk
           eq_refl).
Defined.

Lemma create_board (N : nat) (rnd : nat → nat) :
  3 ≤ N →
  ∃ tileFrames w,
    shuffleGrid N rnd = Normal tileFrames
    ∧ create N rnd loaded = (Normal tt, w)
    ∧ grid_inv N w ∧ framesOk w
    ∧ length (tiles w) = N * N - 1
    ∧ board w = reverse tileFrames
    ∧ blankRow w = 0
    ∧ Nat.even (inversions (board w)) = true
    ∧ boardEven N w = true.
Proof.
  intros HN. unfold create.
  destruct (shuffleGrid_Permutation N rnd HN) as (tf & Htf & HP & Hrule).
  rewrite Htf.
  assert (Hlen : length tf = N * N - 1)
    by (rewrite HP; apply tileNumbers0_length; lia).
  assert (HND : NoDup tf) by (rewrite HP; apply tileNumbers0_NoDup; lia).
  destruct (createFrom_board N tf loaded) as (w & Hrun & Hinv & Hb & Hrow);
    [lia|done|done|done|].
  destruct (createFrom_frames N tf loaded) as (w1 & Hrun1 & Hframes);
    [lia|done|done|done|].
  assert (w1 = w) as -> by congruence.
  assert (Heven : Nat.even (inversions (board w)) = true).
  { rewrite Hb, inversions_inv.
    apply (triangle_even N _ (inv tf) HN).
    - rewrite (inv_reverse tf HND), Hlen. done.
    - by apply parityRule_even. }
  exists tf, w. split; [done|]. split; [done|]. split; [done|].
  split.
  { unfold framesOk. rewrite Hframes. split.
    - apply (NoDup_fmap_2 Some). by rewrite reverse_Permutation.
    - apply Forall_fmap, Forall_true. by eexists. }
  split.
  { rewrite <- (length_fmap frame), Hframes, length_fmap, length_reverse.
    done. }
  split; [done|]. split; [done|]. split; [done|].
  unfold boardEven. rewrite Hrow.
  destruct (Nat.even N); by rewrite Nat.add_0_r.
Qed.

(** X14.  The board [create] deals has an even number of inversions in
    reading order, whatever the size and the random draws: read row by
    row it is the sequence [shuffleGrid] returned, backwards, and the
    blank is in the top row. *)
Theorem create_deals_even_board (N : nat) (rnd : nat → nat) :
  3 ≤ N → inRange rnd →
  ∃ tileFrames w,
    shuffleGrid N rnd = Normal tileFrames
    ∧ create N rnd loaded = (Normal tt, w)
    ∧ board w = reverse tileFrames
    ∧ blankRow w = 0
    ∧ Nat.even (inversions (board w)) = true
    ∧ boardEven N w = true.
Proof.
  intros HN _.
  destruct (create_board N rnd HN)
    as (tf & w & H1 & H2 & _ & _ & _ & H3 & H4 & H5 & H6).
  exists tf, w. done.
Qed.

Lemma create_deals_even_board_witness :
  3 ≤ 4 ∧ inRange (λ i, i / 3)
  ∧ ∃ tileFrames w,
      shuffleGrid 4 (λ i, i / 3) = Normal tileFrames
      ∧ create 4 (λ i, i / 3) loaded = (Normal tt, w)
      ∧ board w = reverse tileFrames
      ∧ blankRow w = 0
      ∧ Nat.even (inversions (board w)) = true
      ∧ boardEven 4 w = true.
Proof.
  assert (H4 : 3 ≤ 4) by lia.
  assert (Hrnd : inRange (λ i, i / 3)).
  { intros i. apply Nat.Div0.div_le_upper_bound. lia. }
  split; [done|]. split; [done|].
  exact (create_deals_even_board 4 (λ i, i / 3) H4 Hrnd).
Defined.

(** X15.  Through the whole game the board keeps the parity it was dealt
    with: on a page that declares [gridSize] (the guard passes and leaves
    the size [n]), from the page load on, whatever the random draws and
    the events, the inversions of the board (plus the blank's row for an
    even size) are even. *)
Theorem game_keeps_board_parity (g : global) (n : Z) (rnd : nat → nat)
  (es : list event) :
  gridSizeGuard g = Normal n →
  inRange rnd →
  (∀ t, GameObjectDown t ∈ es → (Z.of_nat t < n * n - 1)%Z) →
  ∃ w w', boot g rnd = (Normal tt, w)
          ∧ run (Z.to_nat n) es w = (Normal tt, w')
          ∧ boardEven (Z.to_nat n) w' = true.
Proof.
  intros Hg _ Hclicks. pose proof (gridSizeGuard_ge_3 g n Hg) as Hge.
  unfold boot. rewrite Hg.
  destruct (create_board (Z.to_nat n) rnd)
    as (tf & w & _ & Hrun & Hinv & Hok & Hts & _ & _ & _ & Hb); [lia|].
  destruct (run_boardEven (Z.to_nat n) es w Hinv Hok)
    as (w' & Hrun' & _ & _ & Hb').
  { intros t Ht. specialize (Hclicks t Ht). rewrite Hts. nia. }
  exists w, w'. split; [done|]. split; [done|]. congruence.
Qed.

(** A 3-by-3 game: tile 4 slides up into the corner, tile 3 slides
    right after it, the click on tile 0 moves nothing. *)
Lemma game_keeps_board_parity_witness :
  let es := [GameObjectDown 4; TweenComplete; GameObjectDown 3;
             GameObjectDown 0; TweenComplete] in
  gridSizeGuard (Declared (Some 3%Z)) = Normal 3%Z
  ∧ inRange (λ i, i / 2)
  ∧ (∀ t, GameObjectDown t ∈ es → (Z.of_nat t < 3 * 3 - 1)%Z)
  ∧ ∃ w w', boot (Declared (Some 3%Z)) (λ i, i / 2) = (Normal tt, w)
            ∧ run (Z.to_nat 3) es w = (Normal tt, w')
            ∧ boardEven (Z.to_nat 3) w' = true
            ∧ cellAt w 0 2 = Null ∧ cellAt w' 1 1 = Null
            ∧ slidePlays w' = 2.
Proof.
  intros es.
  assert (Hrnd : inRange (λ i, i / 2)).
  { intros i. apply Nat.Div0.div_le_upper_bound. lia. }
  assert (Hes : ∀ t, GameObjectDown t ∈ es → (Z.of_nat t < 3 * 3 - 1)%Z).
  { intros t Ht. unfold es in Ht.
    repeat (apply elem_of_cons in Ht as [Ht|Ht];
            [try discriminate; injection Ht as ->; vm_compute; reflexivity|]).
    by apply elem_of_nil in Ht. }
  split; [reflexivity|]. split; [done|]. split; [done|].
  destruct (game_keeps_board_parity (Declared (Some 3%Z)) 3%Z (λ i, i / 2)
              es eq_refl Hrnd Hes)
    as (w & w' & Hboot & Hrun & Heven).
  exists w, w'. split; [done|]. split; [done|]. split; [done|].
  vm_compute in Hboot. injection Hboot as <-.
  vm_compute in Hrun. injection Hrun as <-.
  done.
Defined.

(** ** The finished picture *)

Lemma sorted_gap (L : list (option nat)) (off : nat) :
  (∀ k v, L !! k = Some (Some v) → v = off + k) →
  StronglySorted le (omap id L) ∧ Forall (λ v, off ≤ v) (omap id L).
Proof.
  revert off. induction L as [|e L IH]; intros off H.
  - split; constructor.
  - destruct (IH (S off)) as [Hs Hall].
    { intros k v Hk. rewrite (H (S k) v Hk). lia. }
    assert (Hall' : Forall (λ v, off ≤ v) (omap id L))
      by (eapply Forall_impl; [exact Hall|]; cbn; lia).
    destruct e as [v|]; [|done].
    change (omap id (Some v :: L)) with (v :: omap id L).
    rewrite (H 0 v eq_refl), Nat.add_0_r.
    split; constructor; try done.
Qed.

Lemma solvedWorld_inv : grid_inv 3 solvedWorld.
Proof.
  destruct (createFrom_grid_inv 3 [8; 7; 6; 5; 4; 3; 1; 0] loaded)
    as (w & Hrun & Hinv); [lia|done|done|].
  vm_compute in Hrun. injection Hrun as <-. exact Hinv.
Qed.

(** X16.  In a finished picture (no tile showing the blank's frame) the
    frames are in ascending reading order, so the board has no
    inversion, and the blank is in the top row: its parity is the one
    [create] deals. *)
Theorem solved_board_is_even (N : nat) (w : World) :
  1 ≤ N → grid_inv N w →
  (∀ o, o ∈ tiles w → frame o ≠ Some (N - 1)) →
  solved N w →
  inversions (board w) = 0 ∧ blankRow w = 0 ∧ boardEven N w = true.
Proof.
  intros HN Hinv Hframes Hs.
  assert (Hinv0 : inversions (board w) = 0).
  { rewrite inversions_inv. apply inv_zero_sorted.
    unfold board. rewrite omap_id_fmap.
    apply (sorted_gap _ 0). intros k v Hk.
    rewrite list_lookup_fmap in Hk.
    destruct (flat w !! k) as [cl|] eqn:Hcl; [|done].
    destruct (flat_lookup_inv N w k cl Hinv Hcl)
      as (i & j & Hi & Hj & -> & <-).
    injection Hk as Hk.
    destruct (Hs i j Hi Hj) as [Hn|Hf].
    - rewrite Hn in Hk. done.
    - unfold frameAt in Hf. destruct (cellAt w i j); try done.
      cbn in Hk. rewrite Hk in Hf. injection Hf as ->. lia. }
  assert (Hrow : blankRow w = 0).
  { apply (blankRow_eq N w 0 (N - 1) Hinv).
    destruct (Hs 0 (N - 1)) as [Hn|Hf]; [lia|lia|done|].
    exfalso. unfold frameAt in Hf.
    destruct (cellAt w 0 (N - 1)) as [| |t]; [done|done|].
    destruct (tiles w !! t) as [o|] eqn:Ho; [|done]. cbn in Hf.
    apply (Hframes o); [by eapply list_elem_of_lookup_2|].
    rewrite Hf. f_equal. lia. }
  split; [done|]. split; [done|].
  unfold boardEven. rewrite Hinv0, Hrow. by destruct (Nat.even N).
Qed.

Lemma solved_board_is_even_witness :
  1 ≤ 3 ∧ grid_inv 3 solvedWorld
  ∧ (∀ o, o ∈ tiles solvedWorld → frame o ≠ Some (3 - 1))
  ∧ solved 3 solvedWorld
  ∧ inversions (board solvedWorld) = 0 ∧ blankRow solvedWorld = 0
  ∧ boardEven 3 solvedWorld = true.
Proof.
  assert (H3 : 1 ≤ 3) by lia.
  assert (Hframes : ∀ o, o ∈ tiles solvedWorld →
                         frame o ≠ Some (3 - 1)).
  { intros o Ho. apply list_elem_of_lookup_1 in Ho as [t Ht].
    destruct t as [|[|[|[|[|[|[|[|t]]]]]]]]; simpl in Ht;
      try discriminate; injection Ht as <-; done. }
  assert (Hs : solved 3 solvedWorld).
  { apply solved_3.
    intros [|[|[|i]]] [|[|[|j]]] Hi Hj; try lia; reflexivity. }
  split; [done|]. split; [exact solvedWorld_inv|]. split; [exact Hframes|].
  split; [exact Hs|].
  exact (solved_board_is_even 3 solvedWorld H3 solvedWorld_inv Hframes Hs).
Defined.

(** ** [slideTile] outside the grid *)

(** X17.  Asked to slide a tile to a row the grid does not have,
    [slideTile] throws a TypeError at its first grid write: by then the
    tween is registered, but no cell and no tile has changed and no slide
    sound is played. *)
Theorem slideTile_outside_rows (t : tid) (r c : nat) (w : World) (o : Tile) :
  tiles w !! t = Some o → length (grid w) ≤ r →
  slideTile t r c w
  = (Throw TypeError, set_tweens (tweens w ++ [mkTween t r c]) w).
Proof.
  intros Ht Hr. apply lookup_ge_None in Hr.
  unfold slideTile, bind, getTile, modify, writeCell. rewrite Ht.
  cbn [grid tiles]. by rewrite Hr.
Qed.

Lemma slideTile_outside_rows_witness :
  tiles exampleWorld !! 7 = Some (mkTile (Some 8) 2 2)
  ∧ length (grid exampleWorld) ≤ 3
  ∧ slideTile 7 3 2 exampleWorld
    = (Throw TypeError,
       set_tweens (tweens exampleWorld ++ [mkTween 7 3 2]) exampleWorld).
Proof.
  assert (Hr : length (grid exampleWorld) ≤ 3) by (vm_compute; lia).
  split; [reflexivity|]. split; [exact Hr|].
  exact (slideTile_outside_rows 7 3 2 exampleWorld (mkTile (Some 8) 2 2)
           eq_refl Hr).
Defined.
